(** * go-github-pivotal-migrator: the migration pipeline of [main.go]

    A shallow embedding of [main.go].  Go strings are byte sequences, so a
    string is a [string] of 8-bit [ascii]; [len] is [String.length] and
    [s[0:n]] is [substring 0 n s].  A pointer field of the GitHub records
    ([*string], [*int], [*time.Time], [*User]) is an [option]; dereferencing
    [None] is the run-time panic of a nil dereference.  The two remote
    services are oracles that answer from the history of the run. *)

From Stdlib Require Import String Ascii List ZArith Lia Bool DecimalString.
Import ListNotations.

Local Open Scope string_scope.
Local Open Scope list_scope.

(** ** Strings *)

(** The line feed, Go's ["\n"]. *)
Definition LF : string := String (ascii_of_nat 10) EmptyString.

(** [sub] occurs in [s] as a contiguous run of bytes. *)
Definition Contains (sub s : string) : Prop :=
  exists pre post : string, s = (pre ++ sub ++ post)%string.

(** [s] ends with [suffix]. *)
Definition EndsWith (suffix s : string) : Prop :=
  exists pre : string, s = (pre ++ suffix)%string.

(** ** The library types the program touches *)

Module time.
(** [time.Time]: seconds and nanoseconds; rendered by its [String] method. *)
Record Time : Type := { sec : Z; nsec : Z }.
End time.

Module github.
Module Label.
Record t : Type := { URL : option string; Name : option string; Color : option string }.
End Label.
Module User.
Record t : Type := { Login : option string }.
End User.
Module Issue.
Record t : Type :=
  { Number : option Z;
    Title : option string;
    Body : option string;
    HTMLURL : option string;
    CreatedAt : option time.Time;
    Labels : list Label.t }.
End Issue.
Module IssueComment.
Record t : Type :=
  { Body : option string;
    User : option User.t;
    HTMLURL : option string;
    CreatedAt : option time.Time }.
End IssueComment.
End github.

Module pivotal.
Module Label.
Record t : Type := { Name : string }.
End Label.
Module StoryRequest.
(** [Labels] is a [*[]*Label]: [None] is the nil pointer. *)
Record t : Type :=
  { Name : string;
    Description : string;
    Labels : option (list Label.t);
    Type_ : string;
    State : string }.
End StoryRequest.
Module Story.
Record t : Type := { Id : Z }.
End Story.
Module Comment.
Record t : Type := { Text : string }.
End Comment.
End pivotal.

(** An [error] value, identified with the text of its [Error()] method. *)
Definition error : Type := string.

(** The [(value, err)] pair a client call returns. *)
Inductive result (A : Type) : Type :=
| ok (a : A)
| err (e : error).
Arguments ok {A} a.
Arguments err {A} e.

(** ** Flags and clients *)

Record Flags : Type :=
  { owner : string;
    repos : list string;
    ghToken : string;
    ptToken : string;
    ptProjId : Z;
    limit : Z;
    dryRun : bool }.

(** The values [flag.*Var] registers in [init]: the state before parsing. *)
Definition defaultFlags : Flags :=
  {| owner := EmptyString;
     repos := [];
     ghToken := EmptyString;
     ptToken := EmptyString;
     ptProjId := 0;
     limit := 1000;
     dryRun := true |}.

(** What [initClients] builds: the Pivotal client holds its token; the GitHub
    client holds an OAuth2 transport, or none when the token is empty. *)
Record Clients : Type :=
  { ptClient : string;
    ghClient : option string }.

Definition initClients (flags : Flags) : Clients :=
  {| ptClient := ptToken flags;
     ghClient := if String.eqb (ghToken flags) EmptyString
                 then None
                 else Some (ghToken flags) |}.

(** ** Effects: the trace of a run *)

Inductive Event : Type :=
| EvPrint (s : string)
| EvListByRepo (owner repo state : string) (perPage : Z)
               (r : result (list github.Issue.t))
| EvListComments (owner repo : string) (number perPage : Z)
                 (r : result (list github.IssueComment.t))
| EvCreate (projId : Z) (req : pivotal.StoryRequest.t)
           (r : result pivotal.Story.t)
| EvAddComment (projId storyId : Z) (req : pivotal.Comment.t)
               (r : result pivotal.Comment.t).

(** The remote services.  Each answer may depend on the clients and on
    everything the run did before the call. *)
Record Remote : Type :=
  { ListByRepo : Clients -> list Event -> string -> string -> string -> Z ->
                 result (list github.Issue.t);
    ListComments : Clients -> list Event -> string -> string -> Z -> Z ->
                   result (list github.IssueComment.t);
    Create : Clients -> list Event -> Z -> pivotal.StoryRequest.t ->
             result pivotal.Story.t;
    AddComment : Clients -> list Event -> Z -> Z -> pivotal.Comment.t ->
                 result pivotal.Comment.t }.

(** How a computation stops early: [log.Fatal] (message, exit status 1), a
    nil-dereference panic, or [os.Exit]. *)
Inductive Stop : Type :=
| Fatal (msg : string)
| Panic
| Exit (code : Z).

Inductive Outcome (A : Type) : Type :=
| Ret (a : A)
| Halt (s : Stop).
Arguments Ret {A} a.
Arguments Halt {A} s.

(** A computation maps the trace so far to an outcome and the new trace. *)
Definition M (A : Type) : Type := list Event -> Outcome A * list Event.

Definition ret {A : Type} (a : A) : M A := fun t => (Ret a, t).

Definition bind {A B : Type} (m : M A) (k : A -> M B) : M B :=
  fun t =>
    match m t with
    | (Ret a, t') => k a t'
    | (Halt s, t') => (Halt s, t')
    end.

Definition halt {A : Type} (s : Stop) : M A := fun t => (Halt s, t).

Definition emit (e : Event) : M unit := fun t => (Ret tt, t ++ [e]).

(** Dereference of a pointer: panics on nil. *)
Definition deref {A : Type} (p : option A) : M A :=
  match p with
  | Some a => ret a
  | None => halt Panic
  end.

(** [for _, x := range l { body x }]. *)
Fixpoint forRange {A : Type} (l : list A) (body : A -> M unit) : M unit :=
  match l with
  | [] => ret tt
  | x :: l' => bind (body x) (fun _ => forRange l' body)
  end.

Declare Scope go_scope.
Delimit Scope go_scope with go.
Notation "x <- m ;; k" := (bind m (fun x => k))
  (at level 100, m at next level, right associativity) : go_scope.
Notation "m ;;; k" := (bind m (fun _ => k))
  (at level 100, right associativity) : go_scope.

(** The outcome without its value: [None] when the computation returned. *)
Definition stopped {A : Type} (o : Outcome A) : option Stop :=
  match o with
  | Ret _ => None
  | Halt s => Some s
  end.

(** ** [trunc] *)

Definition trunc (s : string) : string :=
  if (Z.of_nat (String.length s) <? 255)%Z then s
  else substring 0 255 s.

(** ** [fmt] *)

(** What the program takes from its libraries and [main.go] does not define:
    [time.Time]'s [String] method, the [%q] rendering of a [[]github.Label]
    and of a [[]string], and the two Pivotal constants. *)
Class Lib : Type :=
  { Time_String : time.Time -> string;
    quoteLabels : list github.Label.t -> string;
    quoteStrings : list string -> string;
    StoryTypeFeature : string;
    StoryStateUnscheduled : string }.

(** The operands the program passes to [Sprintf], [Printf] and [Fatalf]. *)
Inductive Arg : Type :=
| ArgString (s : string)
| ArgInt (n : Z)
| ArgTime (t : time.Time)
| ArgLabels (l : list github.Label.t)
| ArgStrings (l : list string)
| ArgError (e : error).

(** [%d] of an [int]. *)
Definition formatInt (n : Z) : string := NilEmpty.string_of_int (Z.to_int n).

Definition isVerb (c verb : ascii) : bool := Ascii.eqb c verb.

(** One operand under one verb.  The last case of each branch is [fmt]'s
    bad-verb report; no call of [main.go] reaches it. *)
Definition formatArg {L : Lib} (verb : ascii) (a : Arg) : string :=
  let bad := ("%!" ++ String verb "(BADVERB)")%string in
  match a with
  | ArgString s => if isVerb verb "s" || isVerb verb "v" then s else bad
  | ArgInt n => if isVerb verb "d" || isVerb verb "v" then formatInt n else bad
  | ArgTime t => if isVerb verb "s" || isVerb verb "v" then Time_String t else bad
  | ArgLabels l => if isVerb verb "q" then quoteLabels l else bad
  | ArgStrings l => if isVerb verb "q" then quoteStrings l else bad
  | ArgError e => if isVerb verb "s" || isVerb verb "v" then e else bad
  end.

(** [fmt.Sprintf]: bytes of the format are copied; [%] followed by a verb
    consumes the next operand.  Every call of [main.go] passes as many
    operands as its format has verbs, so [fmt]'s report of extra operands
    is left out. *)
Fixpoint Sprintf {L : Lib} (format : string) (args : list Arg) : string :=
  match format with
  | EmptyString => EmptyString
  | String c rest =>
      if isVerb c "%" then
        match rest with
        | EmptyString => "%!(NOVERB)"
        | String verb rest' =>
            match args with
            | a :: args' => (formatArg verb a ++ Sprintf rest' args')%string
            | [] => ("%!" ++ String verb "(MISSING)" ++ Sprintf rest' [])%string
            end
        end
      else String c (Sprintf rest args)
  end.

Definition Printf {L : Lib} (format : string) (args : list Arg) : M unit :=
  emit (EvPrint (Sprintf format args)).

Definition Println (s : string) : M unit :=
  emit (EvPrint (s ++ LF)%string).

Definition log_Fatal {A : Type} (msg : string) : M A := halt (Fatal msg).

Definition log_Fatalf {L : Lib} {A : Type} (format : string) (args : list Arg) : M A :=
  halt (Fatal (Sprintf format args)).

Definition os_Exit {A : Type} (code : Z) : M A := halt (Exit code).

(** ** The record converter *)

(** A pure computation that may panic. *)
Definition obind {A B : Type} (p : option A) (k : A -> option B) : option B :=
  match p with
  | Some a => k a
  | None => None
  end.

Declare Scope panic_scope.
Delimit Scope panic_scope with panic.
Notation "x <- p ;; k" := (obind p (fun x => k))
  (at level 100, p at next level, right associativity) : panic_scope.

Definition convertIssue {L : Lib} (repo : string) (is_ : github.Issue.t)
  : option pivotal.StoryRequest.t :=
  (let labels :=
     [ {| pivotal.Label.Name := "github-migrated" |};
       {| pivotal.Label.Name := Sprintf "github-repo/%s" [ArgString repo] |} ] in
  let bodyFmt := ("%s" ++ LF ++ "```")%string in
  let bodyFmt := (bodyFmt ++ "
Migrated from Github
Created: %s
Labels: %q
")%string in
  let bodyFmt := (bodyFmt ++ "```" ++ LF ++ LF)%string in
  url <- github.Issue.HTMLURL is_;;
  created <- github.Issue.CreatedAt is_;;
  let body := Sprintf bodyFmt
                [ArgString url; ArgTime created; ArgLabels (github.Issue.Labels is_)] in
  isBody <- github.Issue.Body is_;;
  let body := (body ++ isBody)%string in
  title <- github.Issue.Title is_;;
  Some {| pivotal.StoryRequest.Name := title;
          pivotal.StoryRequest.Description := body;
          pivotal.StoryRequest.Labels := Some labels;
          pivotal.StoryRequest.Type_ := StoryTypeFeature;
          pivotal.StoryRequest.State := StoryStateUnscheduled |})%panic.

Definition convertComment {L : Lib} (cm : github.IssueComment.t)
  : option pivotal.Comment.t :=
  (let bodyFmt := ("%s" ++ LF ++ "```")%string in
  let bodyFmt := (bodyFmt ++ "
Migrated from Github
Created: %s
Author: %s
")%string in
  let bodyFmt := (bodyFmt ++ "```" ++ LF ++ LF)%string in
  url <- github.IssueComment.HTMLURL cm;;
  created <- github.IssueComment.CreatedAt cm;;
  user <- github.IssueComment.User cm;;
  login <- github.User.Login user;;
  let body := Sprintf bodyFmt [ArgString url; ArgTime created; ArgString login] in
  cmBody <- github.IssueComment.Body cm;;
  let body := (body ++ cmBody)%string in
  Some {| pivotal.Comment.Text := body |})%panic.

(** ** The reporter *)

Definition printIssue {L : Lib} (is_ : github.Issue.t) : M unit :=
  (let fmtStr := "
--- issue ---
Number: %d
Title: %s
URL: %s
Created: %s
Labels: %q
--- /issue ---
" in
   number <- deref (github.Issue.Number is_);;
   title <- deref (github.Issue.Title is_);;
   url <- deref (github.Issue.HTMLURL is_);;
   created <- deref (github.Issue.CreatedAt is_);;
   Printf fmtStr [ArgInt number; ArgString title; ArgString url; ArgTime created;
                  ArgLabels (github.Issue.Labels is_)])%go.

Definition printStory {L : Lib} (sr : pivotal.StoryRequest.t) : M unit :=
  (srLabels <- deref (pivotal.StoryRequest.Labels sr);;
   let labels := map pivotal.Label.Name srLabels in
   let fmtStr := "
--- story ---
Name: %s
Description: %s
Type: %s
State: %s
Labels: %q
--- /story ---
" in
   Printf fmtStr [ArgString (pivotal.StoryRequest.Name sr);
                  ArgString (trunc (pivotal.StoryRequest.Description sr));
                  ArgString (pivotal.StoryRequest.Type_ sr);
                  ArgString (pivotal.StoryRequest.State sr);
                  ArgStrings labels])%go.

Definition printIssueComment {L : Lib} (cm : github.IssueComment.t) : M unit :=
  (let fmtStr := "
--- issue comment ---
Author: %s
Created: %s
Body: %s
--- /issue comment ---
" in
   user <- deref (github.IssueComment.User cm);;
   login <- deref (github.User.Login user);;
   created <- deref (github.IssueComment.CreatedAt cm);;
   body <- deref (github.IssueComment.Body cm);;
   Printf fmtStr [ArgString login; ArgTime created; ArgString (trunc body)])%go.

Definition printStoryComment {L : Lib} (cm : pivotal.Comment.t) : M unit :=
  let fmtStr := "
--- story comment ---
Text: %s
--- /story comment ---
" in
  Printf fmtStr [ArgString (trunc (pivotal.Comment.Text cm))].

(** ** The orchestrator *)

Section Orchestrator.

Context {L : Lib}.

(** The globals of [main.go]: the parsed flags; [ghSvc] and [ptSvc] are
    the remote services reached through the clients [initClients] built. *)
Variable flags : Flags.
Variable remote : Remote.

Definition ghSvc_ListByRepo (cl : Clients) (owner repo state : string) (perPage : Z)
  : M (result (list github.Issue.t)) :=
  fun t =>
    let r := ListByRepo remote cl t owner repo state perPage in
    (Ret r, t ++ [EvListByRepo owner repo state perPage r]).

Definition ghSvc_ListComments (cl : Clients) (owner repo : string) (number perPage : Z)
  : M (result (list github.IssueComment.t)) :=
  fun t =>
    let r := ListComments remote cl t owner repo number perPage in
    (Ret r, t ++ [EvListComments owner repo number perPage r]).

Definition ptSvc_Create (cl : Clients) (projId : Z) (req : pivotal.StoryRequest.t)
  : M (result pivotal.Story.t) :=
  fun t =>
    let r := Create remote cl t projId req in
    (Ret r, t ++ [EvCreate projId req r]).

Definition ptSvc_AddComment (cl : Clients) (projId storyId : Z) (req : pivotal.Comment.t)
  : M (result pivotal.Comment.t) :=
  fun t =>
    let r := AddComment remote cl t projId storyId req in
    (Ret r, t ++ [EvAddComment projId storyId req r]).

(** The body of the comment loop of [migrateIssue]; [newStory] is [None]
    while the variable is still nil. *)
Definition migrateComment (cl : Clients) (newStory : option pivotal.Story.t)
           (cm : github.IssueComment.t) : M unit :=
  (commentReq <- deref (convertComment cm);;
   if dryRun flags then
     printIssueComment cm;;;
     printStoryComment commentReq
   else
     story <- deref newStory;;
     r <- ptSvc_AddComment cl (ptProjId flags) (pivotal.Story.Id story) commentReq;;
     match r with
     | err e => log_Fatalf "error creating comment: %v" [ArgError e]
     | ok _ => ret tt
     end)%go.

Definition migrateIssue (cl : Clients) (repo : string) (is_ : github.Issue.t) : M unit :=
  (Println (LF ++ "===== begin =====" ++ LF);;;
   storyReq <- deref (convertIssue repo is_);;
   newStory <-
     (if dryRun flags then
        printIssue is_;;;
        printStory storyReq;;;
        ret None
      else
        r <- ptSvc_Create cl (ptProjId flags) storyReq;;
        match r with
        | err e => log_Fatalf "error creating story: %v" [ArgError e]
        | ok story => ret (Some story)
        end);;
   number <- deref (github.Issue.Number is_);;
   r <- ghSvc_ListComments cl (owner flags) repo number 1000;;
   match r with
   | err e =>
       log_Fatalf "failed to list gh comments for repo: %s, issue %d: error: %v"
                  [ArgString repo; ArgInt number; ArgError e]
   | ok ghComments =>
       Printf "found %d comments for issue number: %d"
              [ArgInt (Z.of_nat (length ghComments)); ArgInt number];;;
       forRange ghComments (migrateComment cl newStory);;;
       Println (LF ++ "===== end =====" ++ LF)
   end)%go.

(** [main], after [flag.Parse] has filled [flags]. *)
Definition main : M unit :=
  (let cl := initClients flags in
   let repos := repos flags in
   (if (Z.of_nat (length repos) <? 1)%Z
    then log_Fatal "no github repos specified"
    else ret tt);;;
   forRange repos (fun repo =>
     Printf ("Analysing repo: %s/%s" ++ LF) [ArgString (owner flags); ArgString repo];;;
     r <- ghSvc_ListByRepo cl (owner flags) repo "open" (limit flags);;
     match r with
     | err e =>
         log_Fatalf "failed to list issues for repo: %s, error: %v"
                    [ArgString repo; ArgError e]
     | ok iss =>
         Printf "found %d issues to migrate" [ArgInt (Z.of_nat (length iss))];;;
         forRange iss (fun is_ => migrateIssue cl repo is_)
     end);;;
   Println "Finished.";;;
   os_Exit 0)%go.

End Orchestrator.

(** ** A concrete library, repository and pair of services

    Used to run the definitions: repository [acme/widgets] with one open
    issue, number 42, that has one comment; the story it becomes gets
    identifier 7; listing the issues of repository [broken] fails. *)

Definition DQ : string := String (ascii_of_nat 34) EmptyString.

Definition quoteOne (s : string) : string := (DQ ++ s ++ DQ)%string.

Definition labelName (l : github.Label.t) : string :=
  match github.Label.Name l with
  | Some n => n
  | None => EmptyString
  end.

Definition demoLib : Lib :=
  {| Time_String := fun t =>
       (formatInt (time.sec t) ++ "." ++ formatInt (time.nsec t))%string;
     quoteLabels := fun l =>
       ("[" ++ String.concat " " (map (fun x => quoteOne (labelName x)) l) ++ "]")%string;
     quoteStrings := fun l =>
       ("[" ++ String.concat " " (map quoteOne l) ++ "]")%string;
     StoryTypeFeature := "feature";
     StoryStateUnscheduled := "unscheduled" |}.

Definition issue42 : github.Issue.t :=
  {| github.Issue.Number := Some 42%Z;
     github.Issue.Title := Some "Bug: crash on load";
     github.Issue.Body := Some "steps...";
     github.Issue.HTMLURL := Some "https://github.com/acme/widgets/issues/42";
     github.Issue.CreatedAt := Some {| time.sec := 1436000000; time.nsec := 0 |};
     github.Issue.Labels :=
       [ {| github.Label.URL := None;
            github.Label.Name := Some "bug";
            github.Label.Color := None |} ] |}.

Definition comment1 : github.IssueComment.t :=
  {| github.IssueComment.Body := Some "confirmed";
     github.IssueComment.User := Some {| github.User.Login := Some "alice" |};
     github.IssueComment.HTMLURL :=
       Some "https://github.com/acme/widgets/issues/42#issuecomment-1";
     github.IssueComment.CreatedAt := Some {| time.sec := 1436000100; time.nsec := 0 |} |}.

(** An issue whose [Number] is nil; the other fields are those of [issue42]. *)
Definition issueNoNumber : github.Issue.t :=
  {| github.Issue.Number := None;
     github.Issue.Title := github.Issue.Title issue42;
     github.Issue.Body := github.Issue.Body issue42;
     github.Issue.HTMLURL := github.Issue.HTMLURL issue42;
     github.Issue.CreatedAt := github.Issue.CreatedAt issue42;
     github.Issue.Labels := github.Issue.Labels issue42 |}.

(** [n] copies of the byte [c]. *)
Fixpoint repeatByte (n : nat) (c : ascii) : string :=
  match n with
  | O => EmptyString
  | S n' => String c (repeatByte n' c)
  end.

(** [issue42] with a body of 300 bytes. *)
Definition issueLong : github.Issue.t :=
  {| github.Issue.Number := github.Issue.Number issue42;
     github.Issue.Title := github.Issue.Title issue42;
     github.Issue.Body := Some (repeatByte 300 "x");
     github.Issue.HTMLURL := github.Issue.HTMLURL issue42;
     github.Issue.CreatedAt := github.Issue.CreatedAt issue42;
     github.Issue.Labels := github.Issue.Labels issue42 |}.

Definition demoRemote : Remote :=
  {| ListByRepo := fun _ _ _ repo _ _ =>
       if String.eqb repo "broken" then err "transport error"
       else if String.eqb repo "widgets" then ok [issue42]
       else if String.eqb repo "long" then ok [issueLong]
       else ok [];
     ListComments := fun _ _ _ _ _ _ => ok [comment1];
     Create := fun _ _ _ _ => ok {| pivotal.Story.Id := 7 |};
     AddComment := fun _ _ _ _ c => ok c |}.

Definition demoFlags (dry : bool) (rs : list string) : Flags :=
  {| owner := "acme";
     repos := rs;
     ghToken := EmptyString;
     ptToken := "secret";
     ptProjId := 99;
     limit := 1000;
     dryRun := dry |}.

(** The live migration of [issue42], from the empty trace. *)
Definition demoIssueRun : Outcome unit * list Event :=
  migrateIssue (L := demoLib) (demoFlags false ["widgets"]) demoRemote
               (initClients (demoFlags false ["widgets"])) "widgets" issue42 [].

(** The text [comment1] becomes. *)
Definition demoText : pivotal.Comment.t :=
  {| pivotal.Comment.Text :=
       ("https://github.com/acme/widgets/issues/42#issuecomment-1" ++ LF
          ++ "```" ++ LF
          ++ "Migrated from Github" ++ LF
          ++ "Created: 1436000100.0" ++ LF
          ++ "Author: alice" ++ LF
          ++ "```" ++ LF ++ LF
          ++ "confirmed")%string |}.

(** A dry run over three repositories, the second of which cannot be listed. *)
Definition demoBrokenRun : Outcome unit * list Event :=
  main (L := demoLib) (demoFlags true ["widgets"; "broken"; "widgets"]) demoRemote [].

(** ** Predicates on traces *)

(** A call that writes to the destination service. *)
Definition mutating (e : Event) : bool :=
  match e with
  | EvCreate _ _ _ | EvAddComment _ _ _ _ => true
  | _ => false
  end.

(** A call to either remote service. *)
Definition networkCall (e : Event) : bool :=
  match e with
  | EvPrint _ => false
  | _ => true
  end.

(** Number of labels of a story request that satisfy [p]. *)
Definition countLabels (p : pivotal.Label.t -> bool) (sr : pivotal.StoryRequest.t) : nat :=
  match pivotal.StoryRequest.Labels sr with
  | Some labels => length (filter p labels)
  | None => 0
  end.

(** The repository-scoped label as the specification spells it: [repo/<name>]. *)
Definition specRepoLabel (repo : string) (l : pivotal.Label.t) : bool :=
  String.eqb (pivotal.Label.Name l) ("repo/" ++ repo)%string.

(** The repository-scoped labels as [convertIssue] spells them: the names
    that start with [github-repo/]. *)
Definition repoScoped (l : pivotal.Label.t) : bool :=
  String.prefix "github-repo/" (pivotal.Label.Name l).

(** The provenance block of a converted issue, as [convertIssue]'s format
    lays it out. *)
Definition issueBlock {L : Lib} (url : string) (created : time.Time)
           (labels : list github.Label.t) : string :=
  (url ++ LF ++ "```" ++ LF
       ++ "Migrated from Github" ++ LF
       ++ "Created: " ++ Time_String created ++ LF
       ++ "Labels: " ++ quoteLabels labels ++ LF
       ++ "```" ++ LF ++ LF)%string.

(** The provenance block of a converted comment. *)
Definition commentBlock {L : Lib} (url : string) (created : time.Time)
           (login : string) : string :=
  (url ++ LF ++ "```" ++ LF
       ++ "Migrated from Github" ++ LF
       ++ "Created: " ++ Time_String created ++ LF
       ++ "Author: " ++ login ++ LF
       ++ "```" ++ LF ++ LF)%string.

(** ** Specifications of computations *)

(** [m], started on any trace, only appends to it, and the events it appends
    and its outcome satisfy [Q]. *)
Definition run_spec {A : Type} (m : M A) (Q : list Event -> Outcome A -> Prop) : Prop :=
  forall t : list Event,
    exists new : list Event, snd (m t) = t ++ new /\ Q new (fst (m t)).

(** A postcondition that does not look at the value returned. *)
Definition Post : Type := list Event -> option Stop -> Prop.

Definition satisfies {A : Type} (m : M A) (P : Post) : Prop :=
  run_spec m (fun new o => P new (stopped o)).

(** Postconditions that compose along [bind]: they hold of the empty run
    and of a run that returned followed by any run. *)
Record Sequential (P : Post) : Prop :=
  { seq_nil : P [] None;
    seq_app : forall n1 n2 o, P n1 None -> P n2 o -> P (n1 ++ n2) o }.

(** Every event satisfies [p], whatever the outcome. *)
Definition always (p : Event -> Prop) : Post := fun new _ => Forall p new.

(** A [ListByRepo] call that returned an error. *)
Definition failedList (e : Event) : Prop :=
  match e with
  | EvListByRepo _ _ _ _ (err _) => True
  | _ => False
  end.

(** The message of [main]'s [log.Fatalf] when listing [repo] failed with [e]. *)
Definition listFailure {L : Lib} (repo : string) (e : error) : string :=
  Sprintf "failed to list issues for repo: %s, error: %v" [ArgString repo; ArgError e].

(** Either no [ListByRepo] call failed, or one did, it is the last event,
    and the run stopped with the fatal message for that repository. *)
Definition stopsAtFailedList {L : Lib} : Post :=
  fun new o =>
    Forall (fun e => ~ failedList e) new \/
    exists pre ow repo st pp e,
      new = pre ++ [EvListByRepo ow repo st pp (err e)] /\
      Forall (fun e => ~ failedList e) pre /\
      o = Some (Fatal (listFailure repo e)).

(** No comment is attached. *)
Definition noAttach (e : Event) : Prop :=
  match e with
  | EvAddComment _ _ _ _ => False
  | _ => True
  end.

(** No story is created, and a comment is attached only to story [storyId]
    of project [projId]. *)
Definition attachesTo (projId storyId : Z) (e : Event) : Prop :=
  match e with
  | EvCreate _ _ _ => False
  | EvAddComment p s _ _ => p = projId /\ s = storyId
  | _ => True
  end.

(** ** What the reporter prints *)

(** The block [printStory] prints for a story request whose labels have
    the names [labels]. *)
Definition storyBlock {L : Lib} (sr : pivotal.StoryRequest.t) (labels : list string)
  : string :=
  (LF ++ "--- story ---" ++ LF
      ++ "Name: " ++ pivotal.StoryRequest.Name sr ++ LF
      ++ "Description: " ++ trunc (pivotal.StoryRequest.Description sr) ++ LF
      ++ "Type: " ++ pivotal.StoryRequest.Type_ sr ++ LF
      ++ "State: " ++ pivotal.StoryRequest.State sr ++ LF
      ++ "Labels: " ++ quoteStrings labels ++ LF
      ++ "--- /story ---" ++ LF)%string.

(** The block [printIssueComment] prints. *)
Definition issueCommentBlock {L : Lib} (login : string) (created : time.Time)
           (body : string) : string :=
  (LF ++ "--- issue comment ---" ++ LF
      ++ "Author: " ++ login ++ LF
      ++ "Created: " ++ Time_String created ++ LF
      ++ "Body: " ++ trunc body ++ LF
      ++ "--- /issue comment ---" ++ LF)%string.

(** The block [printStoryComment] prints. *)
Definition storyCommentBlock (c : pivotal.Comment.t) : string :=
  (LF ++ "--- story comment ---" ++ LF
      ++ "Text: " ++ trunc (pivotal.Comment.Text c) ++ LF
      ++ "--- /story comment ---" ++ LF)%string.

(** The block [printIssue] prints. *)
Definition issuePrintBlock {L : Lib} (number : Z) (title url : string)
           (created : time.Time) (labels : list github.Label.t) : string :=
  (LF ++ "--- issue ---" ++ LF
      ++ "Number: " ++ formatInt number ++ LF
      ++ "Title: " ++ title ++ LF
      ++ "URL: " ++ url ++ LF
      ++ "Created: " ++ Time_String created ++ LF
      ++ "Labels: " ++ quoteLabels labels ++ LF
      ++ "--- /issue ---" ++ LF)%string.

(** ** The lines the orchestrator prints *)

Definition beginBanner : string := (LF ++ "===== begin =====" ++ LF ++ LF)%string.

Definition endBanner : string := (LF ++ "===== end =====" ++ LF ++ LF)%string.

Definition foundComments (n : nat) (number : Z) : string :=
  ("found " ++ formatInt (Z.of_nat n) ++ " comments for issue number: "
            ++ formatInt number)%string.

Definition foundIssues (n : nat) : string :=
  ("found " ++ formatInt (Z.of_nat n) ++ " issues to migrate")%string.

Definition analysing (owner repo : string) : string :=
  ("Analysing repo: " ++ owner ++ "/" ++ repo ++ LF)%string.

(** ** The events of one comment *)

(** [e] attaches the conversion of [cm] to story [storyId] of project
    [projId], and the call succeeded. *)
Definition attached {L : Lib} (projId storyId : Z) (cm : github.IssueComment.t)
           (e : Event) : Prop :=
  exists c r, convertComment cm = Some c /\ e = EvAddComment projId storyId c (ok r).

(** The two blocks a dry run prints for [cm]; nothing when [cm] lacks a
    field. *)
Definition previewComment {L : Lib} (cm : github.IssueComment.t) : list Event :=
  match github.IssueComment.User cm with
  | Some user =>
      match github.User.Login user, github.IssueComment.CreatedAt cm,
            github.IssueComment.Body cm, convertComment cm with
      | Some login, Some created, Some body, Some c =>
          [ EvPrint (issueCommentBlock login created body);
            EvPrint (storyCommentBlock c) ]
      | _, _, _, _ => []
      end
  | None => []
  end.

(** ** Projections of a trace *)

(** The requests of the [Create] calls, in order. *)
Definition createdRequests (t : list Event) : list pivotal.StoryRequest.t :=
  flat_map (fun e => match e with EvCreate _ req _ => [req] | _ => [] end) t.

(** The conversions of the issues the [ListByRepo] calls returned, in order. *)
Definition fetchedConversions {L : Lib} (t : list Event)
  : list (option pivotal.StoryRequest.t) :=
  flat_map (fun e => match e with
                     | EvListByRepo _ repo _ _ (ok iss) => map (convertIssue repo) iss
                     | _ => []
                     end) t.

(** The repositories of the [ListByRepo] calls, in order. *)
Definition listedRepos (t : list Event) : list string :=
  flat_map (fun e => match e with EvListByRepo _ repo _ _ _ => [repo] | _ => [] end) t.

(** A remote call that returned an error. *)
Definition failed (e : Event) : Prop :=
  match e with
  | EvListByRepo _ _ _ _ (err _) => True
  | EvListComments _ _ _ _ (err _) => True
  | EvCreate _ _ (err _) => True
  | EvAddComment _ _ _ (err _) => True
  | _ => False
  end.

(** The message of the [log.Fatalf] that follows a failed call. *)
Definition failureMessage {L : Lib} (e : Event) : option string :=
  match e with
  | EvListByRepo _ repo _ _ (err x) =>
      Some (Sprintf "failed to list issues for repo: %s, error: %v"
                    [ArgString repo; ArgError x])
  | EvListComments _ repo number _ (err x) =>
      Some (Sprintf "failed to list gh comments for repo: %s, issue %d: error: %v"
                    [ArgString repo; ArgInt number; ArgError x])
  | EvCreate _ _ (err x) => Some (Sprintf "error creating story: %v" [ArgError x])
  | EvAddComment _ _ _ (err x) => Some (Sprintf "error creating comment: %v" [ArgError x])
  | _ => None
  end.

(** Either no call failed, or one did, it is the last event, and the run
    stopped with that call's fatal message. *)
Definition failStop {L : Lib} : Post :=
  fun new o =>
    Forall (fun e => ~ failed e) new \/
    exists pre ev msg,
      new = pre ++ [ev] /\
      Forall (fun e => ~ failed e) pre /\
      failureMessage ev = Some msg /\
      o = Some (Fatal msg).

(** The run did not stop through [os.Exit]. *)
Definition noExit : Post := fun _ o => forall c, o <> Some (Exit c).

(** A call made with the configured parameters: the owner, one of the
    configured repositories, state [open], the page sizes, and the
    configured project. *)
Definition configured (flags : Flags) (e : Event) : Prop :=
  match e with
  | EvPrint _ => True
  | EvListByRepo o repo st pp _ =>
      o = owner flags /\ In repo (repos flags) /\ st = "open"%string /\ pp = limit flags
  | EvListComments o repo _ pp _ =>
      o = owner flags /\ In repo (repos flags) /\ pp = 1000%Z
  | EvCreate p _ _ => p = ptProjId flags
  | EvAddComment p _ _ _ => p = ptProjId flags
  end.

(** [m] never stops through [os.Exit]. *)
Definition neverExits {A : Type} (m : M A) : Prop :=
  forall t c, fst (m t) <> Halt (Exit c).

(** Services whose [Create] call always fails; the rest is [demoRemote]. *)
Definition demoRemoteNoCreate : Remote :=
  {| ListByRepo := ListByRepo demoRemote;
     ListComments := ListComments demoRemote;
     Create := fun _ _ _ _ => err "validation error";
     AddComment := AddComment demoRemote |}.

(** A live run over [widgets], twice, against [demoRemoteNoCreate]. *)
Definition demoNoCreateRun : Outcome unit * list Event :=
  main (L := demoLib) (demoFlags false ["widgets"; "widgets"]) demoRemoteNoCreate [].

(** The body of the loop of [main] over the repositories, under a name. *)
Definition repoStep {L : Lib} (flags : Flags) (remote : Remote) (cl : Clients)
           (repo : string) : M unit :=
  (Printf ("Analysing repo: %s/%s" ++ LF) [ArgString (owner flags); ArgString repo];;;
   r <- ghSvc_ListByRepo remote cl (owner flags) repo "open" (limit flags);;
   match r with
   | err e =>
       log_Fatalf "failed to list issues for repo: %s, error: %v"
                  [ArgString repo; ArgError e]
   | ok iss =>
       Printf "found %d issues to migrate" [ArgInt (Z.of_nat (length iss))];;;
       forRange iss (fun is_ => migrateIssue flags remote cl repo is_)
   end)%go.

(** The last line a run prints. *)
Definition finished : string := ("Finished." ++ LF)%string.

(** An issue with every pointer field set. *)
Definition completeIssue (is_ : github.Issue.t) : Prop :=
  github.Issue.Number is_ <> None /\
  github.Issue.Title is_ <> None /\
  github.Issue.Body is_ <> None /\
  github.Issue.HTMLURL is_ <> None /\
  github.Issue.CreatedAt is_ <> None.

(** A comment with every pointer field set, the author's login included. *)
Definition completeComment (cm : github.IssueComment.t) : Prop :=
  github.IssueComment.Body cm <> None /\
  github.IssueComment.HTMLURL cm <> None /\
  github.IssueComment.CreatedAt cm <> None /\
  exists user login,
    github.IssueComment.User cm = Some user /\ github.User.Login user = Some login.

(** Services that never return an error and only return complete records. *)
Definition reliable (remote : Remote) : Prop :=
  (forall cl t o repo st pp,
      exists iss, ListByRepo remote cl t o repo st pp = ok iss /\
                  Forall completeIssue iss) /\
  (forall cl t o repo number pp,
      exists cms, ListComments remote cl t o repo number pp = ok cms /\
                  Forall completeComment cms) /\
  (forall cl t p req, exists story, Create remote cl t p req = ok story) /\
  (forall cl t p s c, exists c', AddComment remote cl t p s c = ok c').

(** Services that always answer: every repository has the issue [issue42]. *)
Definition steadyRemote : Remote :=
  {| ListByRepo := fun _ _ _ _ _ _ => ok [issue42];
     ListComments := ListComments demoRemote;
     Create := Create demoRemote;
     AddComment := AddComment demoRemote |}.

(** ** Two runs side by side *)

(** [flags] with the dry-run flag set to [b]. *)
Definition setDryRun (b : bool) (flags : Flags) : Flags :=
  {| owner := owner flags;
     repos := repos flags;
     ghToken := ghToken flags;
     ptToken := ptToken flags;
     ptProjId := ptProjId flags;
     limit := limit flags;
     dryRun := b |}.

(** A call that reads from the source service. *)
Definition isRead (e : Event) : bool :=
  match e with
  | EvListByRepo _ _ _ _ _ | EvListComments _ _ _ _ _ => true
  | _ => false
  end.

(** The reads of a trace, in order. *)
Definition reads (t : list Event) : list Event := filter isRead t.

(** [m1] and [m2], started on any two traces, append the same reads and
    end with the same outcome. *)
Definition agree {A : Type} (m1 m2 : M A) : Prop :=
  forall t1 t2 : list Event,
    exists n1 n2 : list Event,
      snd (m1 t1) = t1 ++ n1 /\ snd (m2 t2) = t2 ++ n2 /\
      reads n1 = reads n2 /\ fst (m1 t1) = fst (m2 t2).

(** [m] returns a value that satisfies [P] and reads nothing. *)
Definition quiet {A : Type} (m : M A) (P : A -> Prop) : Prop :=
  forall t : list Event,
    exists (n : list Event) (a : A),
      m t = (Ret a, t ++ n) /\ reads n = [] /\ P a.

(** [m] stops with [s] and reads nothing. *)
Definition stopsQuietly {A : Type} (m : M A) (s : Stop) : Prop :=
  forall t : list Event,
    exists n : list Event, m t = (Halt s, t ++ n) /\ reads n = [].

(** The answers of the source service do not depend on what the run did
    before, and the destination service accepts every write. *)
Definition steady (remote : Remote) : Prop :=
  (forall cl t t' o repo st pp,
      ListByRepo remote cl t o repo st pp = ListByRepo remote cl t' o repo st pp) /\
  (forall cl t t' o repo number pp,
      ListComments remote cl t o repo number pp =
      ListComments remote cl t' o repo number pp) /\
  (forall cl t p req, exists story, Create remote cl t p req = ok story) /\
  (forall cl t p s c, exists c', AddComment remote cl t p s c = ok c').

(** The texts of the [AddComment] calls, in order. *)
Definition attachedTexts (t : list Event) : list pivotal.Comment.t :=
  flat_map (fun e => match e with EvAddComment _ _ c _ => [c] | _ => [] end) t.

(** The conversions of the comments the [ListComments] calls returned, in
    order. *)
Definition fetchedCommentConversions {L : Lib} (t : list Event)
  : list (option pivotal.Comment.t) :=
  flat_map (fun e => match e with
                     | EvListComments _ _ _ _ (ok cms) => map convertComment cms
                     | _ => []
                     end) t.

(** Services that, when they answer, return complete records; they may
    fail at any call. *)
Definition completeAnswers (remote : Remote) : Prop :=
  (forall cl t o repo st pp iss,
      ListByRepo remote cl t o repo st pp = ok iss -> Forall completeIssue iss) /\
  (forall cl t o repo number pp cms,
      ListComments remote cl t o repo number pp = ok cms -> Forall completeComment cms).

(** ** Characters *)

(** A continuation byte of UTF-8: [10xxxxxx]. *)
Definition isContinuationByte (c : ascii) : bool :=
  Nat.leb 128 (nat_of_ascii c) && Nat.ltb (nat_of_ascii c) 192.

(** The number of characters of a UTF-8 string, [utf8.RuneCountInString]
    on well-formed text: the bytes that start a character. *)
Fixpoint runeCount (s : string) : nat :=
  match s with
  | EmptyString => 0
  | String c s' => (if isContinuationByte c then 0 else 1) + runeCount s'
  end.

(** [n] copies of [s]. *)
Fixpoint repeatString (n : nat) (s : string) : string :=
  match n with
  | O => EmptyString
  | S n' => (s ++ repeatString n' s)%string
  end.

(** The character U+00E9, two bytes in UTF-8: [0xC3 0xA9]. *)
Definition eAcute : string :=
  String (ascii_of_nat 195) (String (ascii_of_nat 169) EmptyString).

(** ** What was fetched and what was sent *)

(** The issues the [ListByRepo] calls returned, each with the repository
    it was listed for, in order. *)
Definition fetchedIssues (t : list Event) : list (string * github.Issue.t) :=
  flat_map (fun e => match e with
                     | EvListByRepo _ repo _ _ (ok iss) => map (pair repo) iss
                     | _ => []
                     end) t.

(** The comments the [ListComments] calls returned, in order. *)
Definition fetchedComments (t : list Event) : list github.IssueComment.t :=
  flat_map (fun e => match e with
                     | EvListComments _ _ _ _ (ok cms) => cms
                     | _ => []
                     end) t.

(** [req] is the conversion of the fetched issue [x], and its description
    is the provenance block followed by the whole body of that issue. *)
Definition wholeStory {L : Lib} (x : string * github.Issue.t)
           (req : pivotal.StoryRequest.t) : Prop :=
  convertIssue (fst x) (snd x) = Some req /\
  exists url created body,
    github.Issue.HTMLURL (snd x) = Some url /\
    github.Issue.CreatedAt (snd x) = Some created /\
    github.Issue.Body (snd x) = Some body /\
    pivotal.StoryRequest.Description req =
      (issueBlock url created (github.Issue.Labels (snd x)) ++ body)%string.

(** [c] is the conversion of the fetched comment [cm], and its text is the
    provenance block followed by the whole body of that comment. *)
Definition wholeText {L : Lib} (cm : github.IssueComment.t) (c : pivotal.Comment.t)
  : Prop :=
  convertComment cm = Some c /\
  exists url created user login body,
    github.IssueComment.HTMLURL cm = Some url /\
    github.IssueComment.CreatedAt cm = Some created /\
    github.IssueComment.User cm = Some user /\
    github.User.Login user = Some login /\
    github.IssueComment.Body cm = Some body /\
    pivotal.Comment.Text c = (commentBlock url created login ++ body)%string.

(** The stories created so far are the conversions of the first issues
    fetched; of all of them when the computation returned. *)
Definition createsFetched {L : Lib} : Post :=
  fun n o =>
    exists rest,
      fetchedConversions n = map Some (createdRequests n) ++ rest /\
      (o = None -> rest = []).

(** The comments attached so far are the conversions of the first comments
    fetched; of all of them when the computation returned. *)
Definition attachesFetched {L : Lib} : Post :=
  fun n o =>
    exists rest,
      fetchedCommentConversions n = map Some (attachedTexts n) ++ rest /\
      (o = None -> rest = []).

(** ** The command line *)

(** What [flag.Parse] does with the command line: it fills the flags, or
    it ends the process with a status of its choosing (the [flag]
    package's policy for a malformed command line).  The usage text it
    then writes goes to standard error; the trace holds what is printed
    on standard output and the remote calls. *)
Inductive Parsed : Type :=
| ParsedFlags (flags : Flags)
| ParseExit (code : Z).

(** [main] from its first statement: [flag.Parse()], taken as the function
    [flagParse] of the command line, then the rest of [main]. *)
Definition mainFromArgs {L : Lib} (flagParse : list string -> Parsed) (remote : Remote)
           (args : list string) : M unit :=
  match flagParse args with
  | ParsedFlags flags => main flags remote
  | ParseExit code => os_Exit code
  end.

(** * Properties *)

(** ** Strings *)

Lemma substring_0_length (n : nat) (s : string) :
  n <= String.length s -> String.length (substring 0 n s) = n.
Proof.
  revert s; induction n as [|n IH]; intros s Hle.
  - destruct s; reflexivity.
  - destruct s as [|c s]; simpl in *; [lia|].
    rewrite IH by lia; reflexivity.
Qed.

Lemma substring_0_prefix (n : nat) (s : string) :
  exists rest : string, s = (substring 0 n s ++ rest)%string.
Proof.
  revert s; induction n as [|n IH]; intros s.
  - exists s. destruct s; reflexivity.
  - destruct s as [|c s]; simpl.
    + exists EmptyString; reflexivity.
    + destruct (IH s) as [rest Hrest]. exists rest. congruence.
Qed.

Lemma append_assoc (a b c : string) : ((a ++ b) ++ c = a ++ (b ++ c))%string.
Proof. induction a as [|x a IH]; simpl; [reflexivity | now rewrite IH]. Qed.

Lemma append_nil_r (a : string) : (a ++ EmptyString)%string = a.
Proof. induction a as [|x a IH]; simpl; [reflexivity | now rewrite IH]. Qed.

(** ** [trunc] *)

(** C5: [trunc s] is [s] when [len(s) < 255]; otherwise it is the first 255
    bytes of [s], as they stand, and nothing else. *)
Theorem trunc_spec (s : string) :
  (String.length s < 255 -> trunc s = s) /\
  (~ String.length s < 255 ->
     trunc s = substring 0 255 s /\
     String.length (trunc s) = 255 /\
     exists rest : string, s = (trunc s ++ rest)%string).
Proof.
  unfold trunc.
  destruct (Z.ltb_spec (Z.of_nat (String.length s)) 255) as [Hlt|Hge]; split; intros H.
  - reflexivity.
  - lia.
  - lia.
  - split; [reflexivity|]. split.
    + apply substring_0_length; lia.
    + apply substring_0_prefix.
Qed.

Lemma Contains_app_r (sub a b : string) :
  Contains sub a -> Contains sub (a ++ b)%string.
Proof.
  intros (pre & post & ->). exists pre, (post ++ b)%string.
  now rewrite !append_assoc.
Qed.

Lemma Contains_app_l (sub a b : string) :
  Contains sub b -> Contains sub (a ++ b)%string.
Proof.
  intros (pre & post & ->). exists (a ++ pre)%string, post.
  now rewrite !append_assoc.
Qed.

Lemma Contains_here (sub post : string) : Contains sub (sub ++ post)%string.
Proof. exists EmptyString, post; reflexivity. Qed.

(** ** The record converter *)

Section Converter.

Context {L : Lib}.

Lemma issueBlock_parts (url : string) (created : time.Time)
      (labels : list github.Label.t) :
  Contains url (issueBlock url created labels) /\
  Contains (Time_String created) (issueBlock url created labels) /\
  Contains (quoteLabels labels) (issueBlock url created labels).
Proof.
  unfold issueBlock. repeat split.
  - apply Contains_here.
  - do 7 apply Contains_app_l. apply Contains_here.
  - do 10 apply Contains_app_l. apply Contains_here.
Qed.

Lemma commentBlock_parts (url : string) (created : time.Time) (login : string) :
  Contains url (commentBlock url created login) /\
  Contains (Time_String created) (commentBlock url created login) /\
  Contains login (commentBlock url created login).
Proof.
  unfold commentBlock. repeat split.
  - apply Contains_here.
  - do 7 apply Contains_app_l. apply Contains_here.
  - do 10 apply Contains_app_l. apply Contains_here.
Qed.

(** What [convertIssue] returns when the four fields it dereferences are
    there. *)
Lemma convertIssue_present (repo : string) (is_ : github.Issue.t)
      (url body title : string) (created : time.Time) :
  github.Issue.HTMLURL is_ = Some url ->
  github.Issue.CreatedAt is_ = Some created ->
  github.Issue.Body is_ = Some body ->
  github.Issue.Title is_ = Some title ->
  convertIssue repo is_ =
    Some {| pivotal.StoryRequest.Name := title;
            pivotal.StoryRequest.Description :=
              (issueBlock url created (github.Issue.Labels is_) ++ body)%string;
            pivotal.StoryRequest.Labels :=
              Some [ {| pivotal.Label.Name := "github-migrated" |};
                     {| pivotal.Label.Name := ("github-repo/" ++ repo)%string |} ];
            pivotal.StoryRequest.Type_ := StoryTypeFeature;
            pivotal.StoryRequest.State := StoryStateUnscheduled |}.
Proof.
  intros Hu Hc Hb Ht. unfold convertIssue. rewrite Hu, Hc, Hb, Ht. cbn.
  rewrite append_nil_r. reflexivity.
Qed.

Lemma convertComment_present (cm : github.IssueComment.t) (user : github.User.t)
      (url login body : string) (created : time.Time) :
  github.IssueComment.HTMLURL cm = Some url ->
  github.IssueComment.CreatedAt cm = Some created ->
  github.IssueComment.User cm = Some user ->
  github.User.Login user = Some login ->
  github.IssueComment.Body cm = Some body ->
  convertComment cm =
    Some {| pivotal.Comment.Text := (commentBlock url created login ++ body)%string |}.
Proof.
  intros Hu Hc Hus Hl Hb. unfold convertComment. rewrite Hu, Hc, Hus. cbn.
  rewrite Hl, Hb. reflexivity.
Qed.

(** C2: with every field present, the description [convertIssue] builds is
    the provenance block followed by the issue body as it stands, and it
    contains the issue URL, the creation time as [%s] prints it and the
    labels as [%q] prints them. *)
Theorem convertIssue_description (repo : string) (is_ : github.Issue.t)
        (url body title : string) (created : time.Time) :
  github.Issue.HTMLURL is_ = Some url ->
  github.Issue.CreatedAt is_ = Some created ->
  github.Issue.Body is_ = Some body ->
  github.Issue.Title is_ = Some title ->
  exists sr : pivotal.StoryRequest.t,
    convertIssue repo is_ = Some sr /\
    pivotal.StoryRequest.Description sr =
      (issueBlock url created (github.Issue.Labels is_) ++ body)%string /\
    Contains url (pivotal.StoryRequest.Description sr) /\
    Contains (Time_String created) (pivotal.StoryRequest.Description sr) /\
    Contains (quoteLabels (github.Issue.Labels is_))
             (pivotal.StoryRequest.Description sr) /\
    EndsWith body (pivotal.StoryRequest.Description sr).
Proof.
  intros Hu Hc Hb Ht.
  eexists. split; [apply (convertIssue_present repo is_ _ _ _ _ Hu Hc Hb Ht)|].
  cbn [pivotal.StoryRequest.Description].
  destruct (issueBlock_parts url created (github.Issue.Labels is_)) as (H1 & H2 & H3).
  repeat split; try (apply Contains_app_r; assumption).
  eexists; reflexivity.
Qed.

(** C6: with every field present, the text [convertComment] builds is the
    provenance block followed by the comment body as it stands, and it
    contains the comment URL, the creation time as [%s] prints it and the
    author's login. *)
Theorem convertComment_text (cm : github.IssueComment.t) (user : github.User.t)
        (url login body : string) (created : time.Time) :
  github.IssueComment.HTMLURL cm = Some url ->
  github.IssueComment.CreatedAt cm = Some created ->
  github.IssueComment.User cm = Some user ->
  github.User.Login user = Some login ->
  github.IssueComment.Body cm = Some body ->
  exists c : pivotal.Comment.t,
    convertComment cm = Some c /\
    pivotal.Comment.Text c = (commentBlock url created login ++ body)%string /\
    Contains url (pivotal.Comment.Text c) /\
    Contains (Time_String created) (pivotal.Comment.Text c) /\
    Contains login (pivotal.Comment.Text c) /\
    EndsWith body (pivotal.Comment.Text c).
Proof.
  intros Hu Hc Hus Hl Hb.
  eexists. split; [apply (convertComment_present cm user _ _ _ _ Hu Hc Hus Hl Hb)|].
  cbn [pivotal.Comment.Text].
  destruct (commentBlock_parts url created login) as (H1 & H2 & H3).
  repeat split; try (apply Contains_app_r; assumption).
  eexists; reflexivity.
Qed.

End Converter.

Section Partiality.

Context {L : Lib}.

(** [convertIssue] panics exactly when one of the four pointers it
    dereferences is nil. *)
Lemma convertIssue_None (repo : string) (is_ : github.Issue.t) :
  convertIssue repo is_ = None <->
  (github.Issue.HTMLURL is_ = None \/ github.Issue.CreatedAt is_ = None \/
   github.Issue.Body is_ = None \/ github.Issue.Title is_ = None).
Proof.
  unfold convertIssue.
  destruct (github.Issue.HTMLURL is_), (github.Issue.CreatedAt is_),
    (github.Issue.Body is_), (github.Issue.Title is_);
    cbn [obind]; intuition discriminate.
Qed.

(** [convertComment] panics exactly when one of the five pointers it
    dereferences is nil. *)
Lemma convertComment_None (cm : github.IssueComment.t) :
  convertComment cm = None <->
  (github.IssueComment.HTMLURL cm = None \/
   github.IssueComment.CreatedAt cm = None \/
   github.IssueComment.User cm = None \/
   (exists u, github.IssueComment.User cm = Some u /\ github.User.Login u = None) \/
   github.IssueComment.Body cm = None).
Proof.
  unfold convertComment.
  destruct (github.IssueComment.HTMLURL cm), (github.IssueComment.CreatedAt cm),
    (github.IssueComment.User cm) as [u|], (github.IssueComment.Body cm);
    cbn [obind]; try destruct (github.User.Login u) eqn:Hl; cbn [obind];
    split; intros H; try discriminate; eauto 8;
    repeat match goal with
           | H : _ \/ _ |- _ => destruct H
           | H : exists _, _ |- _ => destruct H as (? & ? & ?)
           | H : Some _ = Some _ |- _ => injection H as ->
           end; congruence.
Qed.

End Partiality.

(** ** Rules for [run_spec] *)

Section Rules.

Context {A B : Type}.

Lemma run_spec_ret (a : A) (Q : list Event -> Outcome A -> Prop) :
  Q [] (Ret a) -> run_spec (ret a) Q.
Proof. intros H t. exists []. cbn. now rewrite app_nil_r. Qed.

Lemma run_spec_halt (s : Stop) (Q : list Event -> Outcome A -> Prop) :
  Q [] (Halt s) -> run_spec (halt s) Q.
Proof. intros H t. exists []. cbn. now rewrite app_nil_r. Qed.

Lemma run_spec_deref (p : option A) (Q : list Event -> Outcome A -> Prop) :
  (forall a, p = Some a -> Q [] (Ret a)) ->
  (p = None -> Q [] (Halt Panic)) ->
  run_spec (deref p) Q.
Proof.
  intros Hs Hn. destruct p as [a|]; cbn.
  - apply run_spec_ret; auto.
  - apply run_spec_halt; auto.
Qed.

Lemma run_spec_bind (m : M A) (k : A -> M B)
      (Q1 : list Event -> Outcome A -> Prop)
      (Q : list Event -> Outcome B -> Prop) :
  run_spec m Q1 ->
  (forall n1 s, Q1 n1 (Halt s) -> Q n1 (Halt s)) ->
  (forall n1 a, Q1 n1 (Ret a) -> run_spec (k a) (fun n2 o => Q (n1 ++ n2) o)) ->
  run_spec (bind m k) Q.
Proof.
  intros Hm Hh Hk t. unfold bind.
  destruct (Hm t) as (n1 & Ht & HQ1).
  destruct (m t) as [[a|s] t1]; cbn in Ht, HQ1; subst t1.
  - destruct (Hk n1 a HQ1 (t ++ n1)) as (n2 & Ht2 & HQ2).
    exists (n1 ++ n2). rewrite Ht2, app_assoc. auto.
  - exists n1. cbn. auto.
Qed.

Lemma run_spec_weaken (m : M A) (Q1 Q2 : list Event -> Outcome A -> Prop) :
  run_spec m Q1 -> (forall n o, Q1 n o -> Q2 n o) -> run_spec m Q2.
Proof.
  intros Hm Hw t. destruct (Hm t) as (n & Ht & HQ). exists n. auto.
Qed.

End Rules.

Lemma satisfies_weaken {A : Type} (m : M A) (P : Post)
      (Q : list Event -> Outcome A -> Prop) :
  satisfies m P -> (forall n o, P n (stopped o) -> Q n o) -> run_spec m Q.
Proof. intros Hm Hw. apply run_spec_weaken with (1 := Hm). exact Hw. Qed.

Lemma run_spec_emit (e : Event) (Q : list Event -> Outcome unit -> Prop) :
  Q [e] (Ret tt) -> run_spec (emit e) Q.
Proof. intros H t. exists [e]. cbn. auto. Qed.

(** ** Rules for sequential postconditions *)

Section SequentialRules.

Variable P : Post.
Hypothesis HP : Sequential P.

Lemma satisfies_ret {A : Type} (a : A) : satisfies (ret a) P.
Proof. apply run_spec_ret. cbn. apply (seq_nil P HP). Qed.

Lemma satisfies_bind {A B : Type} (m : M A) (k : A -> M B) :
  satisfies m P -> (forall a, satisfies (k a) P) -> satisfies (bind m k) P.
Proof.
  intros Hm Hk. unfold satisfies.
  apply run_spec_bind with (Q1 := fun new o => P new (stopped o)); auto.
  intros n1 a H1. cbn in H1.
  apply run_spec_weaken with (1 := Hk a).
  intros n o H2. apply (seq_app P HP); assumption.
Qed.

Lemma satisfies_forRange {A : Type} (l : list A) (body : A -> M unit) :
  (forall x, In x l -> satisfies (body x) P) -> satisfies (forRange l body) P.
Proof.
  induction l as [|x l IH]; intros Hb; cbn [forRange].
  - apply satisfies_ret.
  - apply satisfies_bind.
    + apply Hb; left; reflexivity.
    + intros _. apply IH. intros y Hy. apply Hb; right; assumption.
Qed.

End SequentialRules.

Lemma always_Sequential (p : Event -> Prop) : Sequential (always p).
Proof.
  split; unfold always.
  - constructor.
  - intros n1 n2 _ H1 H2. apply Forall_app; auto.
Qed.

Section AlwaysRules.

Variable p : Event -> Prop.

Lemma always_halt {A : Type} (s : Stop) : satisfies (@halt A s) (always p).
Proof. apply run_spec_halt. constructor. Qed.

Lemma always_deref {A : Type} (o : option A) : satisfies (deref o) (always p).
Proof. apply run_spec_deref; intros; constructor. Qed.

Lemma always_emit (e : Event) : p e -> satisfies (emit e) (always p).
Proof. intros H. apply run_spec_emit. repeat constructor. exact H. Qed.

Lemma always_Printf {L : Lib} (format : string) (args : list Arg) :
  (forall s, p (EvPrint s)) -> satisfies (Printf format args) (always p).
Proof. intros H. apply always_emit, H. Qed.

Lemma always_Println (s : string) :
  (forall s, p (EvPrint s)) -> satisfies (Println s) (always p).
Proof. intros H. apply always_emit, H. Qed.

End AlwaysRules.

Ltac always_step :=
  lazymatch goal with
  | |- satisfies (bind _ _) (always _) =>
      apply satisfies_bind; [apply always_Sequential | | intros ?]
  | |- satisfies (ret _) (always _) => apply satisfies_ret, always_Sequential
  | |- satisfies (halt _) (always _) => apply always_halt
  | |- satisfies (log_Fatal _) (always _) => apply always_halt
  | |- satisfies (log_Fatalf _ _) (always _) => apply always_halt
  | |- satisfies (os_Exit _) (always _) => apply always_halt
  | |- satisfies (deref _) (always _) => apply always_deref
  | |- satisfies (Printf _ _) (always _) => apply always_Printf
  | |- satisfies (Println _) (always _) => apply always_Println
  | |- satisfies (emit _) (always _) => apply always_emit
  | |- satisfies (if ?b then _ else _) (always _) => destruct b
  | |- satisfies (match ?r with ok _ => _ | err _ => _ end) (always _) => destruct r
  end.

(** ** The reporter only prints *)

Section ReporterOnlyPrints.

Context {L : Lib}.
Variable p : Event -> Prop.
Hypothesis Hprint : forall s, p (EvPrint s).

Lemma printIssue_always (is_ : github.Issue.t) : satisfies (printIssue is_) (always p).
Proof. unfold printIssue. repeat always_step. exact Hprint. Qed.

Lemma printStory_always (sr : pivotal.StoryRequest.t) :
  satisfies (printStory sr) (always p).
Proof. unfold printStory. repeat always_step. exact Hprint. Qed.

Lemma printIssueComment_always (cm : github.IssueComment.t) :
  satisfies (printIssueComment cm) (always p).
Proof. unfold printIssueComment. repeat always_step. exact Hprint. Qed.

Lemma printStoryComment_always (cm : pivotal.Comment.t) :
  satisfies (printStoryComment cm) (always p).
Proof. unfold printStoryComment. repeat always_step. exact Hprint. Qed.

End ReporterOnlyPrints.

(** ** The client calls append one event *)

Section Calls.

Variable remote : Remote.
Variable cl : Clients.

Lemma ListByRepo_spec (o repo state : string) (perPage : Z) :
  run_spec (ghSvc_ListByRepo remote cl o repo state perPage)
           (fun new out => exists r, new = [EvListByRepo o repo state perPage r] /\ out = Ret r).
Proof. intros t. eexists. cbn. eauto. Qed.

Lemma ListComments_spec (o repo : string) (number perPage : Z) :
  run_spec (ghSvc_ListComments remote cl o repo number perPage)
           (fun new out => exists r, new = [EvListComments o repo number perPage r] /\ out = Ret r).
Proof. intros t. eexists. cbn. eauto. Qed.

Lemma Create_spec (projId : Z) (req : pivotal.StoryRequest.t) :
  run_spec (ptSvc_Create remote cl projId req)
           (fun new out => exists r, new = [EvCreate projId req r] /\ out = Ret r).
Proof. intros t. eexists. cbn. eauto. Qed.

Lemma AddComment_spec (projId storyId : Z) (req : pivotal.Comment.t) :
  run_spec (ptSvc_AddComment remote cl projId storyId req)
           (fun new out => exists r, new = [EvAddComment projId storyId req r] /\ out = Ret r).
Proof. intros t. eexists. cbn. eauto. Qed.

Variable p : Event -> Prop.

Lemma ListByRepo_always (o repo state : string) (perPage : Z) :
  (forall r, p (EvListByRepo o repo state perPage r)) ->
  satisfies (ghSvc_ListByRepo remote cl o repo state perPage) (always p).
Proof.
  intros H. apply run_spec_weaken with (1 := ListByRepo_spec o repo state perPage).
  intros n out (r & -> & _). repeat constructor. apply H.
Qed.

Lemma ListComments_always (o repo : string) (number perPage : Z) :
  (forall r, p (EvListComments o repo number perPage r)) ->
  satisfies (ghSvc_ListComments remote cl o repo number perPage) (always p).
Proof.
  intros H. apply run_spec_weaken with (1 := ListComments_spec o repo number perPage).
  intros n out (r & -> & _). repeat constructor. apply H.
Qed.

Lemma Create_always (projId : Z) (req : pivotal.StoryRequest.t) :
  (forall r, p (EvCreate projId req r)) ->
  satisfies (ptSvc_Create remote cl projId req) (always p).
Proof.
  intros H. apply run_spec_weaken with (1 := Create_spec projId req).
  intros n out (r & -> & _). repeat constructor. apply H.
Qed.

Lemma AddComment_always (projId storyId : Z) (req : pivotal.Comment.t) :
  (forall r, p (EvAddComment projId storyId req r)) ->
  satisfies (ptSvc_AddComment remote cl projId storyId req) (always p).
Proof.
  intros H. apply run_spec_weaken with (1 := AddComment_spec projId storyId req).
  intros n out (r & -> & _). repeat constructor. apply H.
Qed.

End Calls.

(** ** Dry run *)

Section DryRun.

Context {L : Lib}.
Variable flags : Flags.
Variable remote : Remote.
Hypothesis Hdry : dryRun flags = true.

Lemma migrateComment_dry (cl : Clients) (newStory : option pivotal.Story.t)
      (cm : github.IssueComment.t) :
  satisfies (migrateComment flags remote cl newStory cm) (always (fun e => mutating e = false)).
Proof.
  unfold migrateComment. rewrite Hdry. repeat always_step.
  - now apply printIssueComment_always.
  - now apply printStoryComment_always.
Qed.

Lemma migrateIssue_dry (cl : Clients) (repo : string) (is_ : github.Issue.t) :
  satisfies (migrateIssue flags remote cl repo is_) (always (fun e => mutating e = false)).
Proof.
  unfold migrateIssue. rewrite Hdry. repeat always_step; try reflexivity.
  - now apply printIssue_always.
  - now apply printStory_always.
  - now apply ListComments_always.
  - apply satisfies_forRange; [apply always_Sequential|].
    intros cm _. apply migrateComment_dry.
Qed.

Lemma main_dry : satisfies (main flags remote) (always (fun e => mutating e = false)).
Proof.
  unfold main. repeat always_step; try reflexivity.
  apply satisfies_forRange; [apply always_Sequential|].
  intros repo _. repeat always_step; try reflexivity.
  - now apply ListByRepo_always.
  - apply satisfies_forRange; [apply always_Sequential|].
    intros is_ _. apply migrateIssue_dry.
Qed.

(** C1: with the dry-run flag set, no event of a run of [main] is a call
    of [ptSvc.Create] or [ptSvc.AddComment]: every event is a print or a
    read of the source service. *)
Theorem dry_run_no_mutation :
  Forall (fun e => mutating e = false) (snd (main flags remote [])).
Proof.
  destruct (main_dry []) as (new & Hnew & Hall).
  rewrite Hnew. exact Hall.
Qed.

End DryRun.

(** ** Stepping through a computation *)

Lemma bind_assoc {A B C : Type} (m : M A) (f : A -> M B) (g : B -> M C) (t : list Event) :
  bind (bind m f) g t = bind m (fun a => bind (f a) g) t.
Proof. unfold bind. destruct (m t) as [[a|s] t1]; reflexivity. Qed.

Lemma run_spec_ext {A : Type} (m1 m2 : M A) (Q : list Event -> Outcome A -> Prop) :
  (forall t, m1 t = m2 t) -> run_spec m2 Q -> run_spec m1 Q.
Proof. intros He H t. rewrite He. apply H. Qed.

Lemma run_spec_bind_assoc {A B C : Type} (m : M A) (f : A -> M B) (g : B -> M C)
      (Q : list Event -> Outcome C -> Prop) :
  run_spec (bind m (fun a => bind (f a) g)) Q -> run_spec (bind (bind m f) g) Q.
Proof. apply run_spec_ext. intros t. apply bind_assoc. Qed.

Lemma run_spec_bind_emit {B : Type} (e : Event) (k : unit -> M B)
      (Q : list Event -> Outcome B -> Prop) :
  run_spec (k tt) (fun n o => Q (e :: n) o) -> run_spec (bind (emit e) k) Q.
Proof.
  intros H.
  apply run_spec_bind with (Q1 := fun n o => n = [e] /\ o = Ret tt).
  - apply run_spec_emit. auto.
  - intros n1 s [_ Hs]. discriminate.
  - intros n1 [] [-> _]. exact H.
Qed.

Lemma run_spec_bind_deref {A B : Type} (p : option A) (k : A -> M B)
      (Q : list Event -> Outcome B -> Prop) :
  (forall a, p = Some a -> run_spec (k a) Q) ->
  (p = None -> Q [] (Halt Panic)) ->
  run_spec (bind (deref p) k) Q.
Proof.
  intros Hs Hn. destruct p as [a|]; cbn [deref].
  - apply run_spec_ext with (m2 := k a); [reflexivity | auto].
  - apply run_spec_ext with (m2 := halt Panic); [reflexivity|].
    apply run_spec_halt. auto.
Qed.

Section StepCalls.

Variable remote : Remote.
Variable cl : Clients.
Context {B : Type}.
Variable Q : list Event -> Outcome B -> Prop.

Lemma run_spec_bind_ListByRepo (o repo state : string) (perPage : Z)
      (k : result (list github.Issue.t) -> M B) :
  (forall r, run_spec (k r) (fun n out => Q (EvListByRepo o repo state perPage r :: n) out)) ->
  run_spec (bind (ghSvc_ListByRepo remote cl o repo state perPage) k) Q.
Proof.
  intros H. apply run_spec_bind with (1 := ListByRepo_spec remote cl o repo state perPage).
  - intros n1 s (r & _ & Hr). discriminate.
  - intros n1 a (r & -> & Hr). injection Hr as ->. apply H.
Qed.

Lemma run_spec_bind_ListComments (o repo : string) (number perPage : Z)
      (k : result (list github.IssueComment.t) -> M B) :
  (forall r, run_spec (k r) (fun n out => Q (EvListComments o repo number perPage r :: n) out)) ->
  run_spec (bind (ghSvc_ListComments remote cl o repo number perPage) k) Q.
Proof.
  intros H. apply run_spec_bind with (1 := ListComments_spec remote cl o repo number perPage).
  - intros n1 s (r & _ & Hr). discriminate.
  - intros n1 a (r & -> & Hr). injection Hr as ->. apply H.
Qed.

Lemma run_spec_bind_Create (projId : Z) (req : pivotal.StoryRequest.t)
      (k : result pivotal.Story.t -> M B) :
  (forall r, run_spec (k r) (fun n out => Q (EvCreate projId req r :: n) out)) ->
  run_spec (bind (ptSvc_Create remote cl projId req) k) Q.
Proof.
  intros H. apply run_spec_bind with (1 := Create_spec remote cl projId req).
  - intros n1 s (r & _ & Hr). discriminate.
  - intros n1 a (r & -> & Hr). injection Hr as ->. apply H.
Qed.

Lemma run_spec_bind_AddComment (projId storyId : Z) (req : pivotal.Comment.t)
      (k : result pivotal.Comment.t -> M B) :
  (forall r, run_spec (k r) (fun n out => Q (EvAddComment projId storyId req r :: n) out)) ->
  run_spec (bind (ptSvc_AddComment remote cl projId storyId req) k) Q.
Proof.
  intros H. apply run_spec_bind with (1 := AddComment_spec remote cl projId storyId req).
  - intros n1 s (r & _ & Hr). discriminate.
  - intros n1 a (r & -> & Hr). injection Hr as ->. apply H.
Qed.

End StepCalls.

(** The same steps for a postcondition [always p]. *)

Section StepAlways.

Variable p : Event -> Prop.
Context {A B : Type}.

Lemma always_bind_deref (o : option A) (k : A -> M B) :
  (forall a, o = Some a -> satisfies (k a) (always p)) ->
  satisfies (bind (deref o) k) (always p).
Proof.
  intros H. apply run_spec_bind_deref; [exact H|]. intros _. constructor.
Qed.

Lemma always_cons (e : Event) (m : M B) :
  p e -> satisfies m (always p) ->
  run_spec m (fun n o => always p (e :: n) (stopped o)).
Proof.
  intros He Hm. apply run_spec_weaken with (1 := Hm).
  intros n o Hn. constructor; assumption.
Qed.

End StepAlways.

(** ** What one issue's migration can append, in either mode *)

Section MigrationEvents.

Context {L : Lib}.
Variable flags : Flags.
Variable remote : Remote.
Variable cl : Clients.
Variable p : Event -> Prop.

Hypothesis Hprint : forall s, p (EvPrint s).
Hypothesis HlistComments : forall o repo number perPage r,
    p (EvListComments o repo number perPage r).
Hypothesis Hcreate : forall repo is_ req r,
    convertIssue repo is_ = Some req -> p (EvCreate (ptProjId flags) req r).
Hypothesis Hadd : forall cm c storyId r,
    convertComment cm = Some c -> p (EvAddComment (ptProjId flags) storyId c r).

Lemma migrateComment_always (newStory : option pivotal.Story.t)
      (cm : github.IssueComment.t) :
  satisfies (migrateComment flags remote cl newStory cm) (always p).
Proof.
  unfold migrateComment. apply always_bind_deref. intros c Hc.
  destruct (dryRun flags).
  - always_step.
    + now apply printIssueComment_always.
    + now apply printStoryComment_always.
  - repeat always_step.
    apply AddComment_always. intros r. now apply Hadd with (cm := cm).
Qed.

Lemma migrateIssue_always (repo : string) (is_ : github.Issue.t) :
  satisfies (migrateIssue flags remote cl repo is_) (always p).
Proof.
  unfold migrateIssue. always_step; [now apply always_Println|].
  apply always_bind_deref. intros sr Hsr.
  always_step.
  - destruct (dryRun flags).
    + repeat always_step.
      * now apply printIssue_always.
      * now apply printStory_always.
    + repeat always_step.
      apply Create_always. intros r. now apply Hcreate with (repo := repo) (is_ := is_).
  - repeat always_step; try exact Hprint.
    + apply ListComments_always. intros r. apply HlistComments.
    + apply satisfies_forRange; [apply always_Sequential|].
      intros cm _. apply migrateComment_always.
Qed.

End MigrationEvents.

(** ** An empty repository list *)

(** C8: with no repository configured, [main] stops at [log.Fatal] before
    any event: nothing is printed and neither service is called, whatever
    the other flags and the services are. *)
Theorem empty_repos_fatal {L : Lib} (flags : Flags) (remote : Remote) :
  repos flags = [] ->
  main flags remote [] = (Halt (Fatal "no github repos specified"), []).
Proof.
  intros Hrepos. unfold main. rewrite Hrepos. reflexivity.
Qed.

(** ** A failed listing *)

Lemma failed_is_last (pre pre' post : list Event) (ev ev' : Event) :
  pre ++ ev :: post = pre' ++ [ev'] ->
  Forall (fun e => ~ failedList e) pre' ->
  failedList ev ->
  post = [] /\ ev = ev'.
Proof.
  revert pre'. induction pre as [|a pre IH]; intros pre' Heq Hpre Hev.
  - destruct pre' as [|x pre']; cbn in Heq.
    + injection Heq as -> <-. auto.
    + injection Heq as -> _. inversion Hpre; subst. contradiction.
  - destruct pre' as [|x pre']; cbn in Heq.
    + injection Heq as _ Heq. destruct pre; discriminate.
    + injection Heq as _ Heq. inversion Hpre; subst. eauto.
Qed.

Section FailedListing.

Context {L : Lib}.

Lemma stopsAtFailedList_Sequential : Sequential stopsAtFailedList.
Proof.
  split; unfold stopsAtFailedList.
  - left. constructor.
  - intros n1 n2 o [H1|(pre & ow & repo & st & pp & e & _ & _ & Ho)] H2;
      [|discriminate].
    destruct H2 as [H2|(pre & ow & repo & st & pp & e & -> & Hpre & Ho)].
    + left. apply Forall_app; auto.
    + right. exists (n1 ++ pre), ow, repo, st, pp, e.
      rewrite app_assoc. repeat split; auto. apply Forall_app; auto.
Qed.

Lemma always_stops {A : Type} (m : M A) :
  satisfies m (always (fun e => ~ failedList e)) -> satisfies m stopsAtFailedList.
Proof.
  intros H. apply run_spec_weaken with (1 := H). intros n o Hn. left. exact Hn.
Qed.

Variable flags : Flags.
Variable remote : Remote.

Lemma migrateIssue_lists_no_repo (cl : Clients) (repo : string) (is_ : github.Issue.t) :
  satisfies (migrateIssue flags remote cl repo is_) (always (fun e => ~ failedList e)).
Proof. apply migrateIssue_always; intros; cbn; tauto. Qed.

Lemma main_stops : satisfies (main flags remote) stopsAtFailedList.
Proof.
  pose proof stopsAtFailedList_Sequential as HS.
  unfold main.
  apply satisfies_bind; [exact HS | | intros _].
  { apply always_stops. repeat always_step. }
  apply satisfies_bind; [exact HS | | intros _].
  2:{ apply always_stops. repeat always_step. intros s; cbn; tauto. }
  apply satisfies_forRange; [exact HS|]. intros repo _.
  apply satisfies_bind; [exact HS | | intros _].
  { apply always_stops. repeat always_step. intros s; cbn; tauto. }
  apply run_spec_bind_ListByRepo. intros [iss|e].
  - apply satisfies_weaken with (P := always (fun e => ~ failedList e)).
    + repeat always_step; [intros s; cbn; tauto|].
      apply satisfies_forRange; [apply always_Sequential|].
      intros is_ _. apply migrateIssue_lists_no_repo.
    + intros n o Hn. left. constructor; [cbn; tauto | exact Hn].
  - apply run_spec_halt. right.
    exists [], (owner flags), repo, "open"%string, (limit flags), e.
    unfold listFailure. split; [reflexivity|]. split; [constructor | reflexivity].
Qed.

(** C9: when a [ListByRepo] call of a run of [main] returns an error, that
    call is the last event of the run, so no issue of that repository is
    migrated and no later repository is listed, and the run stops at
    [log.Fatalf] with the message for that repository. *)
Theorem failed_listing_aborts (pre post : list Event) (ow repo st : string)
        (pp : Z) (e : error) :
  snd (main flags remote []) = pre ++ EvListByRepo ow repo st pp (err e) :: post ->
  post = [] /\
  fst (main flags remote []) = Halt (Fatal (listFailure repo e)).
Proof.
  intros Htrace.
  destruct (main_stops []) as (new & Hnew & Hstop). cbn [app] in Hnew.
  rewrite Hnew in Htrace. subst new.
  destruct Hstop as [Hno|(pre' & ow' & repo' & st' & pp' & e' & Heq & Hpre & Ho)].
  - apply Forall_app in Hno as [_ Hno]. inversion Hno; subst.
    exfalso. match goal with H : ~ failedList _ |- _ => apply H end. exact I.
  - destruct (failed_is_last _ _ _ _ _ Heq Hpre I) as [-> Hev].
    injection Hev as <- <- <- <- <-. split; [reflexivity|].
    destruct (fst (main flags remote [])) as [a|s]; cbn [stopped] in Ho; congruence.
Qed.

End FailedListing.

(** ** Live mode: one issue *)

Lemma bind_ret_l {A B : Type} (a : A) (k : A -> M B) (t : list Event) :
  bind (ret a) k t = k a t.
Proof. reflexivity. Qed.

Lemma bind_halt_l {A B : Type} (s : Stop) (k : A -> M B) (t : list Event) :
  bind (halt s) k t = halt s t.
Proof. reflexivity. Qed.

Section LiveIssue.

Context {L : Lib}.
Variable flags : Flags.
Variable remote : Remote.
Variable cl : Clients.
Hypothesis Hlive : dryRun flags = false.

Lemma migrateComment_live (story : pivotal.Story.t) (cm : github.IssueComment.t) :
  satisfies (migrateComment flags remote cl (Some story) cm)
            (always (attachesTo (ptProjId flags) (pivotal.Story.Id story))).
Proof.
  unfold migrateComment. rewrite Hlive.
  apply always_bind_deref. intros c _.
  apply always_bind_deref. intros s Hs. injection Hs as <-.
  repeat always_step.
  apply AddComment_always. intros r. cbn. auto.
Qed.

(** The events of one issue's migration: either no comment is attached, or
    the run printed the banner, created the story, and every later event
    attaches to that story or is no write at all. *)
Lemma migrateIssue_live_shape (repo : string) (is_ : github.Issue.t) :
  run_spec (migrateIssue flags remote cl repo is_)
    (fun new _ =>
       Forall noAttach new \/
       exists sr story banner rest,
         convertIssue repo is_ = Some sr /\
         new = EvPrint banner :: EvCreate (ptProjId flags) sr (ok story) :: rest /\
         Forall (attachesTo (ptProjId flags) (pivotal.Story.Id story)) rest).
Proof.
  unfold migrateIssue, Println. rewrite Hlive.
  apply run_spec_bind_emit.
  apply run_spec_bind_deref; [intros sr Hsr | intros _; left; repeat constructor].
  apply run_spec_bind_assoc, run_spec_bind_Create. intros [story|e].
  - eapply run_spec_ext; [intros t; apply bind_ret_l|].
    apply satisfies_weaken
      with (P := always (attachesTo (ptProjId flags) (pivotal.Story.Id story))).
    + repeat always_step; try exact I; try (intros s; exact I).
      * apply ListComments_always. intros r. exact I.
      * apply satisfies_forRange; [apply always_Sequential|].
        intros cm _. apply migrateComment_live.
    + intros n o Hn. right. eauto 8.
  - eapply run_spec_ext; [intros t; apply bind_halt_l|].
    apply run_spec_halt. left. repeat constructor.
Qed.

(** C3: in live mode, an [AddComment] call of one issue's migration comes
    after the one successful [Create] call of that migration, whose request
    is the conversion of that issue; it carries the project identifier and
    the identifier of the story that call returned; and no event before or
    after that [Create] creates another story. *)
Theorem story_before_comments (repo : string) (is_ : github.Issue.t)
        (t pre post : list Event) (p sid : Z) (c : pivotal.Comment.t)
        (r : result pivotal.Comment.t) :
  snd (migrateIssue flags remote cl repo is_ t) =
    t ++ pre ++ EvAddComment p sid c r :: post ->
  exists sr story pre1 pre2,
    convertIssue repo is_ = Some sr /\
    pre = pre1 ++ EvCreate (ptProjId flags) sr (ok story) :: pre2 /\
    Forall (fun e => mutating e = false) pre1 /\
    p = ptProjId flags /\
    sid = pivotal.Story.Id story /\
    Forall (attachesTo (ptProjId flags) (pivotal.Story.Id story))
           (pre2 ++ EvAddComment p sid c r :: post).
Proof.
  intros Htrace.
  destruct (migrateIssue_live_shape repo is_ t) as (new & Hnew & Hshape).
  rewrite Hnew in Htrace. apply app_inv_head in Htrace. subst new.
  destruct Hshape as [Hno|(sr & story & banner & rest & Hsr & Heq & Hrest)].
  - apply Forall_app in Hno as [_ Hno]. inversion Hno; subst.
    match goal with H : noAttach _ |- _ => destruct H end.
  - destruct pre as [|e1 [|e2 pre2]]; cbn in Heq; try discriminate.
    injection Heq as -> -> <-.
    exists sr, story, [EvPrint banner], pre2.
    pose proof Hrest as Hadd.
    apply Forall_app in Hadd as [_ Hadd]. inversion Hadd; subst.
    match goal with H : attachesTo _ _ (EvAddComment _ _ _ _) |- _ =>
      destruct H as [-> ->] end.
    repeat split; auto.
Qed.

End LiveIssue.

(** ** The conversions are partial *)

Section NoNumber.

Context {L : Lib}.

Lemma migrateIssue_no_number (flags : Flags) (remote : Remote) (cl : Clients)
      (repo : string) (is_ : github.Issue.t) :
  github.Issue.Number is_ = None ->
  run_spec (migrateIssue flags remote cl repo is_)
    (fun _ o =>
       o = Halt Panic \/
       exists e, dryRun flags = false /\
                 o = Halt (Fatal (Sprintf "error creating story: %v" [ArgError e]))).
Proof.
  intros Hn. unfold migrateIssue, Println.
  apply run_spec_bind_emit.
  apply run_spec_bind_deref; [intros sr _ | intros _; left; reflexivity].
  destruct (dryRun flags) eqn:Hd.
  - apply run_spec_bind_assoc. unfold printIssue. rewrite Hn.
    apply run_spec_bind_assoc.
    apply run_spec_bind_deref; [discriminate | intros _; left; reflexivity].
  - apply run_spec_bind_assoc, run_spec_bind_Create. intros [story|e].
    + eapply run_spec_ext; [intros t; apply bind_ret_l|].
      rewrite Hn.
      apply run_spec_bind_deref; [discriminate | intros _; left; reflexivity].
    + eapply run_spec_ext; [intros t; apply bind_halt_l|].
      apply run_spec_halt. right. exists e. split; reflexivity.
Qed.

(** C10: [convertIssue] returns nothing (it panics) exactly when the
    issue's [HTMLURL], [CreatedAt], [Body] or [Title] is nil;
    [convertComment] exactly when the comment's [HTMLURL], [CreatedAt],
    [User], [User.Login] or [Body] is nil; and [migrateIssue] on an issue
    whose [Number] is nil never returns: it panics, unless the story could
    not be created first. *)
Theorem conversion_partial :
  (forall repo is_,
      convertIssue repo is_ = None <->
      (github.Issue.HTMLURL is_ = None \/ github.Issue.CreatedAt is_ = None \/
       github.Issue.Body is_ = None \/ github.Issue.Title is_ = None)) /\
  (forall cm,
      convertComment cm = None <->
      (github.IssueComment.HTMLURL cm = None \/
       github.IssueComment.CreatedAt cm = None \/
       github.IssueComment.User cm = None \/
       (exists u, github.IssueComment.User cm = Some u /\ github.User.Login u = None) \/
       github.IssueComment.Body cm = None)) /\
  (forall flags remote cl repo is_ t,
      github.Issue.Number is_ = None ->
      fst (migrateIssue flags remote cl repo is_ t) = Halt Panic \/
      exists e, dryRun flags = false /\
                fst (migrateIssue flags remote cl repo is_ t) =
                  Halt (Fatal (Sprintf "error creating story: %v" [ArgError e]))).
Proof.
  split; [exact convertIssue_None|].
  split; [exact convertComment_None|].
  intros flags remote cl repo is_ t Hn.
  destruct (migrateIssue_no_number flags remote cl repo is_ Hn t) as (new & _ & H).
  exact H.
Qed.

End NoNumber.

(** ** Labels *)

Section Labels.

Context {L : Lib}.

(** C4, as the code has it: the labels of a converted issue include the
    marker [github-migrated] and exactly one repository-scoped label,
    [github-repo/<name>] for the repository name given: it is the only
    label that starts with [github-repo/].  (The sequence is the marker
    followed by that label.) *)
Theorem convertIssue_labels (repo : string) (is_ : github.Issue.t)
        (sr : pivotal.StoryRequest.t) :
  convertIssue repo is_ = Some sr ->
  exists labels : list pivotal.Label.t,
    pivotal.StoryRequest.Labels sr = Some labels /\
    labels = [ {| pivotal.Label.Name := "github-migrated" |};
               {| pivotal.Label.Name := ("github-repo/" ++ repo)%string |} ] /\
    In {| pivotal.Label.Name := "github-migrated" |} labels /\
    filter repoScoped labels =
      [ {| pivotal.Label.Name := ("github-repo/" ++ repo)%string |} ] /\
    countLabels repoScoped sr = 1.
Proof.
  intros H.
  destruct (github.Issue.HTMLURL is_) as [url|] eqn:Hu;
    [|rewrite (proj2 (convertIssue_None repo is_)) in H by auto; discriminate].
  destruct (github.Issue.CreatedAt is_) as [created|] eqn:Hc;
    [|rewrite (proj2 (convertIssue_None repo is_)) in H by auto; discriminate].
  destruct (github.Issue.Body is_) as [body|] eqn:Hb;
    [|rewrite (proj2 (convertIssue_None repo is_)) in H by auto; discriminate].
  destruct (github.Issue.Title is_) as [title|] eqn:Ht;
    [|rewrite (proj2 (convertIssue_None repo is_)) in H by auto; discriminate].
  rewrite (convertIssue_present repo is_ _ _ _ _ Hu Hc Hb Ht) in H.
  injection H as <-.
  eexists. split; [reflexivity|].
  split; [reflexivity|].
  split; [left; reflexivity|].
  destruct repo; split; reflexivity.
Qed.

End Labels.

(** * The definitions at work *)

(** C1 on a dry run over [acme/widgets]. *)
Lemma dry_run_no_mutation_witness :
  Forall (fun e => mutating e = false)
         (snd (main (L := demoLib) (demoFlags true ["widgets"]) demoRemote [])).
Proof.
  apply (dry_run_no_mutation (L := demoLib) (demoFlags true ["widgets"]) demoRemote).
  reflexivity.
Defined.

(** The same run in live mode does write: one story and one comment. *)
Example live_run_mutates :
  filter mutating (snd (main (L := demoLib) (demoFlags false ["widgets"]) demoRemote [])) =
  [ EvCreate 99
      {| pivotal.StoryRequest.Name := "Bug: crash on load";
         pivotal.StoryRequest.Description :=
           (issueBlock (L := demoLib) "https://github.com/acme/widgets/issues/42"
                       {| time.sec := 1436000000; time.nsec := 0 |}
                       (github.Issue.Labels issue42) ++ "steps...")%string;
         pivotal.StoryRequest.Labels :=
           Some [ {| pivotal.Label.Name := "github-migrated" |};
                  {| pivotal.Label.Name := "github-repo/widgets" |} ];
         pivotal.StoryRequest.Type_ := "feature";
         pivotal.StoryRequest.State := "unscheduled" |}
      (ok {| pivotal.Story.Id := 7 |});
    EvAddComment 99 7 demoText (ok demoText) ].
Proof. vm_compute. reflexivity. Qed.

(** C2 on [issue42]. *)
Lemma convertIssue_description_witness :
  exists sr : pivotal.StoryRequest.t,
    convertIssue (L := demoLib) "widgets" issue42 = Some sr /\
    pivotal.StoryRequest.Description sr =
      (issueBlock (L := demoLib) "https://github.com/acme/widgets/issues/42"
                  {| time.sec := 1436000000; time.nsec := 0 |}
                  (github.Issue.Labels issue42) ++ "steps...")%string /\
    Contains "https://github.com/acme/widgets/issues/42"
             (pivotal.StoryRequest.Description sr) /\
    Contains (Time_String (Lib := demoLib) {| time.sec := 1436000000; time.nsec := 0 |})
             (pivotal.StoryRequest.Description sr) /\
    Contains (quoteLabels (Lib := demoLib) (github.Issue.Labels issue42))
             (pivotal.StoryRequest.Description sr) /\
    EndsWith "steps..." (pivotal.StoryRequest.Description sr).
Proof.
  apply (convertIssue_description (L := demoLib) "widgets" issue42
           "https://github.com/acme/widgets/issues/42" "steps..." "Bug: crash on load"
           {| time.sec := 1436000000; time.nsec := 0 |});
    reflexivity.
Defined.

(** C6 on [comment1]. *)
Lemma convertComment_text_witness :
  exists c : pivotal.Comment.t,
    convertComment (L := demoLib) comment1 = Some c /\
    pivotal.Comment.Text c =
      (commentBlock (L := demoLib)
                    "https://github.com/acme/widgets/issues/42#issuecomment-1"
                    {| time.sec := 1436000100; time.nsec := 0 |} "alice"
         ++ "confirmed")%string /\
    Contains "https://github.com/acme/widgets/issues/42#issuecomment-1"
             (pivotal.Comment.Text c) /\
    Contains (Time_String (Lib := demoLib) {| time.sec := 1436000100; time.nsec := 0 |})
             (pivotal.Comment.Text c) /\
    Contains "alice" (pivotal.Comment.Text c) /\
    EndsWith "confirmed" (pivotal.Comment.Text c).
Proof.
  apply (convertComment_text (L := demoLib) comment1
           {| github.User.Login := Some "alice" |}
           "https://github.com/acme/widgets/issues/42#issuecomment-1" "alice" "confirmed"
           {| time.sec := 1436000100; time.nsec := 0 |});
    reflexivity.
Defined.

(** C3 on the live migration of [issue42]: the comment goes to story 7. *)
Lemma story_before_comments_witness :
  exists sr story pre1 pre2,
    convertIssue (L := demoLib) "widgets" issue42 = Some sr /\
    firstn 4 (snd demoIssueRun) = pre1 ++ EvCreate 99 sr (ok story) :: pre2 /\
    Forall (fun e => mutating e = false) pre1 /\
    99%Z = 99%Z /\
    7%Z = pivotal.Story.Id story /\
    Forall (attachesTo 99 (pivotal.Story.Id story))
           (pre2 ++ EvAddComment 99 7 demoText (ok demoText)
                 :: skipn 5 (snd demoIssueRun)).
Proof.
  apply (story_before_comments (L := demoLib) (demoFlags false ["widgets"]) demoRemote
           (initClients (demoFlags false ["widgets"])) eq_refl "widgets" issue42 []
           (firstn 4 (snd demoIssueRun)) (skipn 5 (snd demoIssueRun))
           99 7 demoText (ok demoText)).
  vm_compute. reflexivity.
Defined.

(** The order of the remote calls of that migration. *)
Example live_issue_calls :
  filter networkCall (snd demoIssueRun) =
  [ EvCreate 99
      {| pivotal.StoryRequest.Name := "Bug: crash on load";
         pivotal.StoryRequest.Description :=
           (issueBlock (L := demoLib) "https://github.com/acme/widgets/issues/42"
                       {| time.sec := 1436000000; time.nsec := 0 |}
                       (github.Issue.Labels issue42) ++ "steps...")%string;
         pivotal.StoryRequest.Labels :=
           Some [ {| pivotal.Label.Name := "github-migrated" |};
                  {| pivotal.Label.Name := "github-repo/widgets" |} ];
         pivotal.StoryRequest.Type_ := "feature";
         pivotal.StoryRequest.State := "unscheduled" |}
      (ok {| pivotal.Story.Id := 7 |});
    EvListComments "acme" "widgets" 42 1000 (ok [comment1]);
    EvAddComment 99 7 demoText (ok demoText) ].
Proof. vm_compute. reflexivity. Qed.

(** C4 on [issue42]. *)
Lemma convertIssue_labels_witness :
  exists sr : pivotal.StoryRequest.t,
    convertIssue (L := demoLib) "widgets" issue42 = Some sr /\
    exists labels : list pivotal.Label.t,
      pivotal.StoryRequest.Labels sr = Some labels /\
      labels = [ {| pivotal.Label.Name := "github-migrated" |};
                 {| pivotal.Label.Name := "github-repo/widgets" |} ] /\
      In {| pivotal.Label.Name := "github-migrated" |} labels /\
      filter repoScoped labels = [ {| pivotal.Label.Name := "github-repo/widgets" |} ] /\
      countLabels repoScoped sr = 1.
Proof.
  eexists. split; [reflexivity|].
  apply (convertIssue_labels (L := demoLib) "widgets" issue42). reflexivity.
Defined.

(** C4 as the specification spells the label: the story converted from
    [issue42] of repository [widgets] has no label [repo/widgets]. *)
Lemma spec_repo_label_absent :
  option_map (countLabels (specRepoLabel "widgets"))
             (convertIssue (L := demoLib) "widgets" issue42) = Some 0.
Proof. vm_compute. reflexivity. Qed.

(** C8 on a live configuration without repositories. *)
Lemma empty_repos_fatal_witness :
  main (L := demoLib) (demoFlags false []) demoRemote [] =
  (Halt (Fatal "no github repos specified"), []).
Proof.
  apply (empty_repos_fatal (L := demoLib) (demoFlags false []) demoRemote).
  reflexivity.
Defined.

(** C9 on [demoBrokenRun]: the failed listing of [broken] is its last event. *)
Lemma failed_listing_aborts_witness :
  @nil Event = [] /\
  fst demoBrokenRun =
    Halt (Fatal (listFailure (L := demoLib) "broken" "transport error")).
Proof.
  apply (failed_listing_aborts (L := demoLib)
           (demoFlags true ["widgets"; "broken"; "widgets"]) demoRemote
           (removelast (snd demoBrokenRun)) []
           "acme" "broken" "open" 1000 "transport error").
  vm_compute. reflexivity.
Defined.

(** The remote calls of [demoBrokenRun]: [widgets] is listed once, and not
    again after [broken]. *)
Example broken_run_calls :
  filter networkCall (snd demoBrokenRun) =
  [ EvListByRepo "acme" "widgets" "open" 1000 (ok [issue42]);
    EvListComments "acme" "widgets" 42 1000 (ok [comment1]);
    EvListByRepo "acme" "broken" "open" 1000 (err "transport error") ].
Proof. vm_compute. reflexivity. Qed.

(** The dry-run flag is set unless the command line clears it. *)
Example dry_run_is_default : dryRun defaultFlags = true.
Proof. reflexivity. Qed.

(** [trunc] at the boundary: 254 bytes stay, 255 stay, 300 become 255. *)
Example trunc_boundary :
  trunc (repeatByte 254 "a") = repeatByte 254 "a" /\
  trunc (repeatByte 255 "a") = repeatByte 255 "a" /\
  trunc (repeatByte 300 "a") = repeatByte 255 "a".
Proof. vm_compute. repeat split. Qed.

(** A body of 300 bytes reaches the destination whole. *)
Example long_body_sent_whole :
  filter (fun e => match e with EvCreate _ _ _ => true | _ => false end)
         (snd (main (L := demoLib) (demoFlags false ["long"]) demoRemote [])) =
  [ EvCreate 99
      {| pivotal.StoryRequest.Name := "Bug: crash on load";
         pivotal.StoryRequest.Description :=
           (issueBlock (L := demoLib) "https://github.com/acme/widgets/issues/42"
                       {| time.sec := 1436000000; time.nsec := 0 |}
                       (github.Issue.Labels issue42) ++ repeatByte 300 "x")%string;
         pivotal.StoryRequest.Labels :=
           Some [ {| pivotal.Label.Name := "github-migrated" |};
                  {| pivotal.Label.Name := "github-repo/long" |} ];
         pivotal.StoryRequest.Type_ := "feature";
         pivotal.StoryRequest.State := "unscheduled" |}
      (ok {| pivotal.Story.Id := 7 |}) ].
Proof. vm_compute. reflexivity. Qed.

(** [migrateIssue] on an issue without a number: the dry run panics after
    the banner; the live run panics after it created the story. *)
Example no_number_panics :
  migrateIssue (L := demoLib) (demoFlags true ["widgets"]) demoRemote
               (initClients (demoFlags true ["widgets"])) "widgets" issueNoNumber [] =
    (Halt Panic, [EvPrint (LF ++ "===== begin =====" ++ LF ++ LF)]) /\
  map mutating
      (snd (migrateIssue (L := demoLib) (demoFlags false ["widgets"]) demoRemote
                         (initClients (demoFlags false ["widgets"])) "widgets"
                         issueNoNumber [])) = [false; true] /\
  fst (migrateIssue (L := demoLib) (demoFlags false ["widgets"]) demoRemote
                    (initClients (demoFlags false ["widgets"])) "widgets"
                    issueNoNumber []) = Halt Panic.
Proof. vm_compute. repeat split. Qed.

(** * Further properties *)

(** ** [trunc] *)

Lemma substring_0_all (s : string) : substring 0 (String.length s) s = s.
Proof. induction s as [|c s IH]; simpl; [reflexivity | now rewrite IH]. Qed.

(** X1: what [trunc] returns is never longer than 255 bytes: its length is
    the smaller of [len(s)] and 255. *)
Theorem trunc_length (s : string) :
  String.length (trunc s) = Nat.min (String.length s) 255.
Proof.
  unfold trunc.
  destruct (Z.ltb_spec (Z.of_nat (String.length s)) 255) as [Hlt|Hge].
  - rewrite Nat.min_l by lia. reflexivity.
  - rewrite substring_0_length by lia. rewrite Nat.min_r by lia. reflexivity.
Qed.

(** X2: truncating twice is truncating once. *)
Theorem trunc_idempotent (s : string) : trunc (trunc s) = trunc s.
Proof.
  pose proof (trunc_length s) as Hlen.
  unfold trunc at 1.
  destruct (Z.ltb_spec (Z.of_nat (String.length (trunc s))) 255) as [Hlt|Hge];
    [reflexivity|].
  assert (H255 : String.length (trunc s) = 255) by lia.
  rewrite <- H255 at 1. apply substring_0_all.
Qed.

(** ** The converter and the reporter together *)

Section ConverterReporter.

Context {L : Lib}.

(** A converted issue had its four fields, and the request is built from
    them. *)
Lemma convertIssue_Some_inv (repo : string) (is_ : github.Issue.t)
      (sr : pivotal.StoryRequest.t) :
  convertIssue repo is_ = Some sr ->
  exists url created body title,
    github.Issue.HTMLURL is_ = Some url /\
    github.Issue.CreatedAt is_ = Some created /\
    github.Issue.Body is_ = Some body /\
    github.Issue.Title is_ = Some title /\
    sr = {| pivotal.StoryRequest.Name := title;
            pivotal.StoryRequest.Description :=
              (issueBlock url created (github.Issue.Labels is_) ++ body)%string;
            pivotal.StoryRequest.Labels :=
              Some [ {| pivotal.Label.Name := "github-migrated" |};
                     {| pivotal.Label.Name := ("github-repo/" ++ repo)%string |} ];
            pivotal.StoryRequest.Type_ := StoryTypeFeature;
            pivotal.StoryRequest.State := StoryStateUnscheduled |}.
Proof.
  intros H.
  destruct (github.Issue.HTMLURL is_) as [url|] eqn:Hu;
    [|rewrite (proj2 (convertIssue_None repo is_)) in H by auto; discriminate].
  destruct (github.Issue.CreatedAt is_) as [created|] eqn:Hc;
    [|rewrite (proj2 (convertIssue_None repo is_)) in H by auto; discriminate].
  destruct (github.Issue.Body is_) as [body|] eqn:Hb;
    [|rewrite (proj2 (convertIssue_None repo is_)) in H by auto; discriminate].
  destruct (github.Issue.Title is_) as [title|] eqn:Ht;
    [|rewrite (proj2 (convertIssue_None repo is_)) in H by auto; discriminate].
  rewrite (convertIssue_present repo is_ _ _ _ _ Hu Hc Hb Ht) in H.
  injection H as <-. exists url, created, body, title. auto.
Qed.

(** A converted comment had its five fields, and the text is built from
    them. *)
Lemma convertComment_Some_inv (cm : github.IssueComment.t) (c : pivotal.Comment.t) :
  convertComment cm = Some c ->
  exists url created user login body,
    github.IssueComment.HTMLURL cm = Some url /\
    github.IssueComment.CreatedAt cm = Some created /\
    github.IssueComment.User cm = Some user /\
    github.User.Login user = Some login /\
    github.IssueComment.Body cm = Some body /\
    c = {| pivotal.Comment.Text := (commentBlock url created login ++ body)%string |}.
Proof.
  intros H.
  destruct (github.IssueComment.HTMLURL cm) as [url|] eqn:Hu;
    [|rewrite (proj2 (convertComment_None cm)) in H by auto; discriminate].
  destruct (github.IssueComment.CreatedAt cm) as [created|] eqn:Hc;
    [|rewrite (proj2 (convertComment_None cm)) in H by auto; discriminate].
  destruct (github.IssueComment.User cm) as [user|] eqn:Hus;
    [|rewrite (proj2 (convertComment_None cm)) in H by auto; discriminate].
  destruct (github.User.Login user) as [login|] eqn:Hl;
    [|rewrite (proj2 (convertComment_None cm)) in H
      by (right; right; right; left; exists user; auto); discriminate].
  destruct (github.IssueComment.Body cm) as [body|] eqn:Hb;
    [|rewrite (proj2 (convertComment_None cm)) in H
      by (do 4 right; assumption); discriminate].
  rewrite (convertComment_present cm user _ _ _ _ Hu Hc Hus Hl Hb) in H.
  injection H as <-. exists url, created, user, login, body. auto 10.
Qed.

(** X3: the repository-scoped label tells the repositories apart: two
    conversions with the same labels were made for the same repository. *)
Theorem labels_identify_repo (repo1 repo2 : string) (is1 is2 : github.Issue.t)
        (sr1 sr2 : pivotal.StoryRequest.t) :
  convertIssue repo1 is1 = Some sr1 ->
  convertIssue repo2 is2 = Some sr2 ->
  pivotal.StoryRequest.Labels sr1 = pivotal.StoryRequest.Labels sr2 ->
  repo1 = repo2.
Proof.
  intros H1 H2 Heq.
  apply convertIssue_Some_inv in H1 as (? & ? & ? & ? & _ & _ & _ & _ & ->).
  apply convertIssue_Some_inv in H2 as (? & ? & ? & ? & _ & _ & _ & _ & ->).
  cbn in Heq. injection Heq as Heq. exact Heq.
Qed.

Lemma printStory_run (sr : pivotal.StoryRequest.t) (labels : list pivotal.Label.t)
      (t : list Event) :
  pivotal.StoryRequest.Labels sr = Some labels ->
  printStory sr t =
    (Ret tt, t ++ [EvPrint (storyBlock sr (map pivotal.Label.Name labels))]).
Proof.
  intros Hl. unfold printStory. rewrite Hl. unfold storyBlock. cbn.
  rewrite ?append_nil_r. reflexivity.
Qed.

Lemma printStoryComment_run (c : pivotal.Comment.t) (t : list Event) :
  printStoryComment c t = (Ret tt, t ++ [EvPrint (storyCommentBlock c)]).
Proof.
  unfold printStoryComment, storyCommentBlock. cbn.
  rewrite ?append_nil_r. reflexivity.
Qed.

Lemma printIssueComment_run (cm : github.IssueComment.t) (user : github.User.t)
      (login body : string) (created : time.Time) (t : list Event) :
  github.IssueComment.User cm = Some user ->
  github.User.Login user = Some login ->
  github.IssueComment.CreatedAt cm = Some created ->
  github.IssueComment.Body cm = Some body ->
  printIssueComment cm t =
    (Ret tt, t ++ [EvPrint (issueCommentBlock login created body)]).
Proof.
  intros Hu Hl Hc Hb. unfold printIssueComment. rewrite Hu. cbn. rewrite Hl, Hc, Hb.
  unfold issueCommentBlock. cbn. rewrite ?append_nil_r. reflexivity.
Qed.

Lemma printIssue_run (is_ : github.Issue.t) (number : Z) (title url : string)
      (created : time.Time) (t : list Event) :
  github.Issue.Number is_ = Some number ->
  github.Issue.Title is_ = Some title ->
  github.Issue.HTMLURL is_ = Some url ->
  github.Issue.CreatedAt is_ = Some created ->
  printIssue is_ t =
    (Ret tt, t ++ [EvPrint (issuePrintBlock number title url created
                                            (github.Issue.Labels is_))]).
Proof.
  intros Hn Ht Hu Hc. unfold printIssue. rewrite Hn, Ht, Hu, Hc.
  unfold issuePrintBlock. cbn. rewrite ?append_nil_r. reflexivity.
Qed.

End ConverterReporter.

(** ** Runs that return *)

Lemma forRange_returns {A : Type} (l : list A) (body : A -> M unit)
      (R : A -> list Event -> Prop) :
  (forall x, run_spec (body x) (fun n o => o = Ret tt -> R x n)) ->
  run_spec (forRange l body)
           (fun n o => o = Ret tt -> exists parts, Forall2 R l parts /\ n = concat parts).
Proof.
  intros Hbody. induction l as [|x l IH]; cbn [forRange].
  - apply run_spec_ret. intros _. exists []. split; [constructor | reflexivity].
  - apply run_spec_bind with (1 := Hbody x).
    + intros n1 s _ Hs. discriminate.
    + intros n1 [] H1. apply run_spec_weaken with (1 := IH).
      intros n2 o H2 Ho. destruct (H2 Ho) as (parts & Hparts & ->).
      exists (n1 :: parts). split; [constructor; auto | reflexivity].
Qed.

Lemma Forall2_singletons {A : Type} (P : A -> Event -> Prop) (l : list A)
      (parts : list (list Event)) :
  Forall2 (fun x n => exists e, n = [e] /\ P x e) l parts ->
  exists es, concat parts = es /\ Forall2 P l es.
Proof.
  induction 1 as [|x n l parts (e & -> & He) _ (es & Hes & IH)].
  - exists []. split; [reflexivity | constructor].
  - exists (e :: es). cbn. rewrite Hes. split; [reflexivity | constructor; auto].
Qed.

Lemma Forall2_flat_map {A : Type} (f : A -> list Event) (P : A -> Prop) (l : list A)
      (parts : list (list Event)) :
  Forall2 (fun x n => n = f x /\ P x) l parts ->
  concat parts = flat_map f l /\ Forall P l.
Proof.
  induction 1 as [|x n l parts [-> Hx] _ [IH1 IH2]].
  - split; [reflexivity | constructor].
  - cbn. rewrite IH1. split; [reflexivity | constructor; auto].
Qed.

Lemma Sprintf_foundComments {L : Lib} (n : nat) (number : Z) :
  Sprintf "found %d comments for issue number: %d" [ArgInt (Z.of_nat n); ArgInt number]
  = foundComments n number.
Proof.
  unfold foundComments. cbn -[formatInt Z.of_nat]. rewrite ?append_nil_r. reflexivity.
Qed.

Lemma Sprintf_foundIssues {L : Lib} (n : nat) :
  Sprintf "found %d issues to migrate" [ArgInt (Z.of_nat n)] = foundIssues n.
Proof. unfold foundIssues. cbn -[formatInt Z.of_nat]. reflexivity. Qed.

Lemma Sprintf_analysing {L : Lib} (owner repo : string) :
  Sprintf ("Analysing repo: %s/%s" ++ LF) [ArgString owner; ArgString repo]
  = analysing owner repo.
Proof. unfold analysing. cbn. reflexivity. Qed.

Section LiveReturns.

Context {L : Lib}.
Variable flags : Flags.
Variable remote : Remote.
Variable cl : Clients.
Hypothesis Hlive : dryRun flags = false.

Lemma migrateComment_live_returns (story : pivotal.Story.t)
      (cm : github.IssueComment.t) :
  run_spec (migrateComment flags remote cl (Some story) cm)
           (fun n o => o = Ret tt ->
                       exists e, n = [e] /\
                                 attached (ptProjId flags) (pivotal.Story.Id story) cm e).
Proof.
  unfold migrateComment. rewrite Hlive.
  apply run_spec_bind_deref; [intros c Hc | intros _ H; discriminate].
  eapply run_spec_ext; [intros t; apply bind_ret_l|].
  apply run_spec_bind_AddComment. intros [c'|e].
  - apply run_spec_ret. intros _. eexists. split; [reflexivity|].
    exists c, c'. auto.
  - apply run_spec_halt. intros H; discriminate.
Qed.

(** The events of a live migration that returned. *)
Lemma migrateIssue_live_returns (repo : string) (is_ : github.Issue.t) :
  run_spec (migrateIssue flags remote cl repo is_)
    (fun new o =>
       o = Ret tt ->
       exists sr story number cms adds,
         convertIssue repo is_ = Some sr /\
         github.Issue.Number is_ = Some number /\
         Forall2 (attached (ptProjId flags) (pivotal.Story.Id story)) cms adds /\
         new = [ EvPrint beginBanner;
                 EvCreate (ptProjId flags) sr (ok story);
                 EvListComments (owner flags) repo number 1000 (ok cms);
                 EvPrint (foundComments (length cms) number) ]
                 ++ adds ++ [EvPrint endBanner]).
Proof.
  unfold migrateIssue, Println, Printf. rewrite Hlive.
  apply run_spec_bind_emit.
  apply run_spec_bind_deref; [intros sr Hsr | intros _ H; discriminate].
  apply run_spec_bind_assoc, run_spec_bind_Create. intros [story|e].
  2:{ eapply run_spec_ext; [intros t; apply bind_halt_l|].
      apply run_spec_halt. intros H; discriminate. }
  eapply run_spec_ext; [intros t; apply bind_ret_l|].
  apply run_spec_bind_deref; [intros number Hnumber | intros _ H; discriminate].
  apply run_spec_bind_ListComments. intros [cms|e].
  2:{ apply run_spec_halt. intros H; discriminate. }
  apply run_spec_bind_emit.
  eapply run_spec_bind.
  - apply forRange_returns. intros cm.
    apply (migrateComment_live_returns story cm).
  - intros n1 s _ H. discriminate.
  - intros n1 [] H1. apply run_spec_emit. intros _.
    destruct (H1 eq_refl) as (parts & Hparts & ->).
    destruct (Forall2_singletons _ _ _ Hparts) as (adds & -> & Hadds).
    exists sr, story, number, cms, adds. repeat split; auto.
    rewrite Sprintf_foundComments. reflexivity.
Qed.

(** X4: a live migration of one issue that returns made exactly these
    calls, in this order: it created the story from the conversion of the
    issue, listed the comments of the issue's number with page size 1000,
    and attached the conversion of each comment, in the order listed, to
    the story created; around them it printed the two banners and the
    count. *)
Theorem live_migration_trace (repo : string) (is_ : github.Issue.t) (t : list Event) :
  fst (migrateIssue flags remote cl repo is_ t) = Ret tt ->
  exists sr story number cms adds,
    convertIssue repo is_ = Some sr /\
    github.Issue.Number is_ = Some number /\
    Forall2 (attached (ptProjId flags) (pivotal.Story.Id story)) cms adds /\
    snd (migrateIssue flags remote cl repo is_ t) =
      t ++ [ EvPrint beginBanner;
             EvCreate (ptProjId flags) sr (ok story);
             EvListComments (owner flags) repo number 1000 (ok cms);
             EvPrint (foundComments (length cms) number) ]
        ++ adds ++ [EvPrint endBanner].
Proof.
  intros Hret.
  destruct (migrateIssue_live_returns repo is_ t) as (new & Hnew & Hshape).
  destruct (Hshape Hret) as (sr & story & number & cms & adds & H1 & H2 & H3 & ->).
  exists sr, story, number, cms, adds. auto.
Qed.

End LiveReturns.

Lemma run_spec_known {A : Type} (m : M A) (a : A) (e : Event)
      (Q : list Event -> Outcome A -> Prop) :
  (forall t, m t = (Ret a, t ++ [e])) -> Q [e] (Ret a) -> run_spec m Q.
Proof. intros Hm HQ t. exists [e]. rewrite Hm. auto. Qed.

Lemma run_spec_bind_known {A B : Type} (m : M A) (k : A -> M B) (a : A) (e : Event)
      (Q : list Event -> Outcome B -> Prop) :
  (forall t, m t = (Ret a, t ++ [e])) ->
  run_spec (k a) (fun n o => Q (e :: n) o) ->
  run_spec (bind m k) Q.
Proof.
  intros Hm Hk.
  apply run_spec_bind with (Q1 := fun n o => n = [e] /\ o = Ret a).
  - apply run_spec_known with (1 := Hm). auto.
  - intros n1 s [_ H]. discriminate.
  - intros n1 a' [-> H]. injection H as <-. exact Hk.
Qed.

Lemma run_spec_bind_stops {A B : Type} (m : M A) (k : A -> M B) (s : Stop)
      (Q : list Event -> Outcome B -> Prop) :
  (forall t, m t = (Halt s, t)) -> Q [] (Halt s) -> run_spec (bind m k) Q.
Proof.
  intros Hm HQ t. exists []. unfold bind. rewrite Hm, app_nil_r. auto.
Qed.

Section DryReturns.

Context {L : Lib}.
Variable flags : Flags.
Variable remote : Remote.
Variable cl : Clients.
Hypothesis Hdry : dryRun flags = true.

Lemma migrateComment_dry_returns (newStory : option pivotal.Story.t)
      (cm : github.IssueComment.t) :
  run_spec (migrateComment flags remote cl newStory cm)
           (fun n o => o = Ret tt -> n = previewComment cm /\ convertComment cm <> None).
Proof.
  unfold migrateComment. rewrite Hdry.
  apply run_spec_bind_deref; [intros c Hc | intros _ H; discriminate].
  destruct (convertComment_Some_inv cm c Hc)
    as (url & created & user & login & body & Hu & Hcr & Hus & Hl & Hb & _).
  apply run_spec_bind_known
    with (1 := fun t => printIssueComment_run cm user login body created t Hus Hl Hcr Hb).
  apply run_spec_known with (1 := printStoryComment_run c).
  intros _. split; [|congruence].
  unfold previewComment. rewrite Hus, Hl, Hcr, Hb, Hc. reflexivity.
Qed.

(** The events of a dry run over one issue that returned. *)
Lemma migrateIssue_dry_returns (repo : string) (is_ : github.Issue.t) :
  run_spec (migrateIssue flags remote cl repo is_)
    (fun new o =>
       o = Ret tt ->
       exists sr number title url created cms,
         convertIssue repo is_ = Some sr /\
         github.Issue.Number is_ = Some number /\
         github.Issue.Title is_ = Some title /\
         github.Issue.HTMLURL is_ = Some url /\
         github.Issue.CreatedAt is_ = Some created /\
         Forall (fun cm => convertComment cm <> None) cms /\
         new = [ EvPrint beginBanner;
                 EvPrint (issuePrintBlock number title url created
                                          (github.Issue.Labels is_));
                 EvPrint (storyBlock sr ["github-migrated"%string;
                                         ("github-repo/" ++ repo)%string]);
                 EvListComments (owner flags) repo number 1000 (ok cms);
                 EvPrint (foundComments (length cms) number) ]
                 ++ flat_map previewComment cms ++ [EvPrint endBanner]).
Proof.
  unfold migrateIssue, Println, Printf. rewrite Hdry.
  apply run_spec_bind_emit.
  apply run_spec_bind_deref; [intros sr Hsr | intros _ H; discriminate].
  destruct (convertIssue_Some_inv repo is_ sr Hsr)
    as (url & created & body & title & Hu & Hc & Hb & Ht & Hsreq).
  destruct (github.Issue.Number is_) as [number|] eqn:Hn.
  2:{ apply run_spec_bind_assoc.
      apply run_spec_bind_stops with (s := Panic);
        [|intros H; discriminate].
      intros t. unfold printIssue. rewrite Hn. reflexivity. }
  apply run_spec_bind_assoc.
  apply run_spec_bind_known
    with (1 := fun t => printIssue_run is_ number title url created t Hn Ht Hu Hc).
  apply run_spec_bind_assoc.
  assert (Hlabels : pivotal.StoryRequest.Labels sr =
                    Some [ {| pivotal.Label.Name := "github-migrated" |};
                           {| pivotal.Label.Name := ("github-repo/" ++ repo)%string |} ])
    by (rewrite Hsreq; reflexivity).
  apply run_spec_bind_known with (1 := fun t => printStory_run sr _ t Hlabels).
  eapply run_spec_ext; [intros t; apply bind_ret_l|].
  eapply run_spec_ext; [intros t; apply bind_ret_l|].
  apply run_spec_bind_ListComments. intros [cms|e].
  2:{ apply run_spec_halt. intros H; discriminate. }
  apply run_spec_bind_emit.
  eapply run_spec_bind.
  - apply forRange_returns. intros cm.
    apply (migrateComment_dry_returns None cm).
  - intros n1 s _ H. discriminate.
  - intros n1 [] H1. apply run_spec_emit. intros _.
    destruct (H1 eq_refl) as (parts & Hparts & ->).
    destruct (Forall2_flat_map _ _ _ _ Hparts) as [-> Hall].
    exists sr, number, title, url, created, cms. repeat split; auto.
    rewrite Sprintf_foundComments. reflexivity.
Qed.

(** X5: a dry run over one issue that returns listed the comments of the
    issue's number and printed, in this order: the banner, the issue block,
    the story block with the description cut by [trunc] and the two label
    names, the count, for each comment its block and the block of its
    conversion, and the closing banner. *)
Theorem dry_migration_trace (repo : string) (is_ : github.Issue.t) (t : list Event) :
  fst (migrateIssue flags remote cl repo is_ t) = Ret tt ->
  exists sr number title url created cms,
    convertIssue repo is_ = Some sr /\
    github.Issue.Number is_ = Some number /\
    github.Issue.Title is_ = Some title /\
    github.Issue.HTMLURL is_ = Some url /\
    github.Issue.CreatedAt is_ = Some created /\
    Forall (fun cm => convertComment cm <> None) cms /\
    snd (migrateIssue flags remote cl repo is_ t) =
      t ++ [ EvPrint beginBanner;
             EvPrint (issuePrintBlock number title url created
                                      (github.Issue.Labels is_));
             EvPrint (storyBlock sr ["github-migrated"%string;
                                     ("github-repo/" ++ repo)%string]);
             EvListComments (owner flags) repo number 1000 (ok cms);
             EvPrint (foundComments (length cms) number) ]
        ++ flat_map previewComment cms ++ [EvPrint endBanner].
Proof.
  intros Hret.
  destruct (migrateIssue_dry_returns repo is_ t) as (new & Hnew & Hshape).
  destruct (Hshape Hret)
    as (sr & number & title & url & created & cms & H1 & H2 & H3 & H4 & H5 & H6 & ->).
  exists sr, number, title, url, created, cms. auto 10.
Qed.

End DryReturns.

(** ** Stopping at the first failed call *)

Lemma last_is_unique (P : Event -> Prop) (pre pre' post : list Event) (ev ev' : Event) :
  pre ++ ev :: post = pre' ++ [ev'] ->
  Forall (fun e => ~ P e) pre' ->
  P ev ->
  post = [] /\ ev = ev'.
Proof.
  revert pre'. induction pre as [|a pre IH]; intros pre' Heq Hpre Hev.
  - destruct pre' as [|x pre']; cbn in Heq.
    + injection Heq as -> <-. auto.
    + injection Heq as -> _. inversion Hpre; subst. contradiction.
  - destruct pre' as [|x pre']; cbn in Heq.
    + injection Heq as _ Heq. destruct pre; discriminate.
    + injection Heq as _ Heq. inversion Hpre; subst. eauto.
Qed.

Section NeverExits.

Context {A B : Type}.

Lemma neverExits_ret (a : A) : neverExits (ret a).
Proof. intros t c. discriminate. Qed.

Lemma neverExits_emit (e : Event) : neverExits (emit e).
Proof. intros t c. discriminate. Qed.

Lemma neverExits_halt (s : Stop) : (forall c, s <> Exit c) -> neverExits (@halt A s).
Proof. intros H t c Heq. injection Heq as ->. apply (H c). reflexivity. Qed.

Lemma neverExits_deref (p : option A) : neverExits (deref p).
Proof. destruct p; intros t c; discriminate. Qed.

Lemma neverExits_bind (m : M A) (k : A -> M B) :
  neverExits m -> (forall a, neverExits (k a)) -> neverExits (bind m k).
Proof.
  intros Hm Hk t c. unfold bind. specialize (Hm t c).
  destruct (m t) as [[a|s] t1]; cbn in *.
  - apply Hk.
  - intros Heq. apply Hm. injection Heq as ->. reflexivity.
Qed.

End NeverExits.

Lemma neverExits_forRange {A : Type} (l : list A) (body : A -> M unit) :
  (forall x, neverExits (body x)) -> neverExits (forRange l body).
Proof.
  intros Hb. induction l as [|x l IH]; cbn [forRange].
  - apply neverExits_ret.
  - apply neverExits_bind; auto.
Qed.

Ltac never_exits :=
  repeat lazymatch goal with
    | |- neverExits (bind _ _) => apply neverExits_bind; [|intros ?]
    | |- neverExits (forRange _ _) => apply neverExits_forRange; intros ?
    | |- neverExits (if ?b then _ else _) => destruct b
    | |- neverExits (match ?r with ok _ => _ | err _ => _ end) => destruct r
    | |- neverExits (deref _) => apply neverExits_deref
    | |- neverExits (ret _) => apply neverExits_ret
    | |- neverExits (log_Fatal _) => apply neverExits_halt; discriminate
    | |- neverExits (log_Fatalf _ _) => apply neverExits_halt; discriminate
    | |- neverExits (Printf _ _) => apply neverExits_emit
    | |- neverExits (Println _) => apply neverExits_emit
    | |- neverExits (ghSvc_ListByRepo _ _ _ _ _ _) => intros ? ?; discriminate
    | |- neverExits (ghSvc_ListComments _ _ _ _ _ _) => intros ? ?; discriminate
    | |- neverExits (ptSvc_Create _ _ _ _) => intros ? ?; discriminate
    | |- neverExits (ptSvc_AddComment _ _ _ _ _) => intros ? ?; discriminate
    end.

Section FailStop.

Context {L : Lib}.
Variable flags : Flags.
Variable remote : Remote.

Lemma migrateIssue_neverExits (cl : Clients) (repo : string) (is_ : github.Issue.t) :
  neverExits (migrateIssue flags remote cl repo is_).
Proof.
  unfold migrateIssue, migrateComment, printIssue, printStory, printIssueComment,
    printStoryComment.
  never_exits.
Qed.

Lemma repoStep_neverExits (cl : Clients) (repo : string) :
  neverExits (repoStep flags remote cl repo).
Proof.
  unfold repoStep. never_exits. apply migrateIssue_neverExits.
Qed.

Lemma failStop_Sequential : Sequential failStop.
Proof.
  split; unfold failStop.
  - left. constructor.
  - intros n1 n2 o [H1|(pre & ev & msg & _ & _ & _ & Ho)] H2; [|discriminate].
    destruct H2 as [H2|(pre & ev & msg & -> & Hpre & Hmsg & Ho)].
    + left. apply Forall_app; auto.
    + right. exists (n1 ++ pre), ev, msg.
      rewrite app_assoc. repeat split; auto. apply Forall_app; auto.
Qed.

Lemma failStop_of_always {A : Type} (m : M A) :
  satisfies m (always (fun e => ~ failed e)) -> satisfies m failStop.
Proof.
  intros H. apply run_spec_weaken with (1 := H). intros n o Hn. left. exact Hn.
Qed.

Lemma failStop_cons (e : Event) (n : list Event) (o : option Stop) :
  ~ failed e -> failStop n o -> failStop (e :: n) o.
Proof.
  intros He Hn.
  apply (seq_app failStop failStop_Sequential [e] n o); [|exact Hn].
  left. repeat constructor. exact He.
Qed.

Lemma failStop_failed {A : Type} (ev : Event) (msg : string) :
  failureMessage ev = Some msg ->
  run_spec (@halt A (Fatal msg)) (fun n o => failStop (ev :: n) (stopped o)).
Proof.
  intros Hmsg. apply run_spec_halt. right. exists [], ev, msg.
  repeat split; auto.
Qed.

Ltac fail_stop_leaf :=
  apply failStop_of_always; repeat always_step; try (intros; cbn; tauto).

Lemma migrateComment_failStop (cl : Clients) (newStory : option pivotal.Story.t)
      (cm : github.IssueComment.t) :
  satisfies (migrateComment flags remote cl newStory cm) failStop.
Proof.
  pose proof failStop_Sequential as HS.
  unfold migrateComment.
  apply satisfies_bind; [exact HS | fail_stop_leaf | intros c].
  destruct (dryRun flags).
  - apply failStop_of_always. always_step.
    + apply printIssueComment_always. intros; cbn; tauto.
    + apply printStoryComment_always. intros; cbn; tauto.
  - apply satisfies_bind; [exact HS | fail_stop_leaf | intros story].
    apply run_spec_bind_AddComment. intros [c'|e].
    + apply run_spec_ret. left. repeat constructor. cbn. tauto.
    + apply failStop_failed. reflexivity.
Qed.

Lemma migrateIssue_failStop (cl : Clients) (repo : string) (is_ : github.Issue.t) :
  satisfies (migrateIssue flags remote cl repo is_) failStop.
Proof.
  pose proof failStop_Sequential as HS.
  unfold migrateIssue.
  apply satisfies_bind; [exact HS | fail_stop_leaf | intros _].
  apply satisfies_bind; [exact HS | fail_stop_leaf | intros sr].
  apply satisfies_bind; [exact HS | | intros newStory].
  - destruct (dryRun flags).
    + apply failStop_of_always. repeat always_step.
      * apply printIssue_always. intros; cbn; tauto.
      * apply printStory_always. intros; cbn; tauto.
    + apply run_spec_bind_Create. intros [story|e].
      * apply run_spec_ret. left. repeat constructor. cbn. tauto.
      * apply failStop_failed. reflexivity.
  - apply satisfies_bind; [exact HS | fail_stop_leaf | intros number].
    apply run_spec_bind_ListComments. intros [cms|e].
    + apply satisfies_weaken with (P := failStop).
      * apply satisfies_bind; [exact HS | fail_stop_leaf | intros _].
        apply satisfies_bind; [exact HS | | intros _; fail_stop_leaf].
        apply satisfies_forRange; [exact HS|]. intros cm _.
        apply migrateComment_failStop.
      * intros n o Hn. apply failStop_cons; [cbn; tauto | exact Hn].
    + apply failStop_failed. reflexivity.
Qed.

Lemma main_failStop : satisfies (main flags remote) failStop.
Proof.
  pose proof failStop_Sequential as HS.
  unfold main.
  apply satisfies_bind; [exact HS | fail_stop_leaf | intros _].
  apply satisfies_bind; [exact HS | | intros _; fail_stop_leaf].
  apply satisfies_forRange; [exact HS|]. intros repo _.
  apply satisfies_bind; [exact HS | fail_stop_leaf | intros _].
  apply run_spec_bind_ListByRepo. intros [iss|e].
  - apply satisfies_weaken with (P := failStop).
    + apply satisfies_bind; [exact HS | fail_stop_leaf | intros _].
      apply satisfies_forRange; [exact HS|]. intros is_ _.
      apply migrateIssue_failStop.
    + intros n o Hn. apply failStop_cons; [cbn; tauto | exact Hn].
  - apply failStop_failed. reflexivity.
Qed.

(** X6: when any remote call of a run of [main] returns an error (listing
    issues, creating a story, listing comments or attaching a comment),
    that call is the last event of the run and the run stops at
    [log.Fatalf] with the message of that call: nothing is retried,
    skipped or undone. *)
Theorem fail_stop (pre post : list Event) (ev : Event) :
  snd (main flags remote []) = pre ++ ev :: post ->
  failed ev ->
  post = [] /\
  exists msg, failureMessage ev = Some msg /\
              fst (main flags remote []) = Halt (Fatal msg).
Proof.
  intros Htrace Hev.
  destruct (main_failStop []) as (new & Hnew & Hstop). cbn [app] in Hnew.
  rewrite Hnew in Htrace. subst new.
  destruct Hstop as [Hno|(pre' & ev' & msg & Heq & Hpre & Hmsg & Ho)].
  - apply Forall_app in Hno as [_ Hno]. inversion Hno; subst. contradiction.
  - destruct (last_is_unique failed _ _ _ _ _ Heq Hpre Hev) as [-> <-].
    split; [reflexivity|]. exists msg. split; [exact Hmsg|].
    destruct (fst (main flags remote [])) as [a|s]; cbn [stopped] in Ho; congruence.
Qed.

End FailStop.

(** ** The skeleton of [main] *)

Lemma run_spec_and_outcome {A : Type} (m : M A)
      (Q : list Event -> Outcome A -> Prop) (R : Outcome A -> Prop) :
  run_spec m Q -> (forall t, R (fst (m t))) ->
  run_spec m (fun n o => Q n o /\ R o).
Proof.
  intros Hm HR t. destruct (Hm t) as (n & Ht & HQ). exists n. auto.
Qed.

Section MainSkeleton.

Context {L : Lib}.
Variable flags : Flags.
Variable remote : Remote.

Lemma main_split (t : list Event) :
  main flags remote t =
  bind (if (Z.of_nat (length (repos flags)) <? 1)%Z
        then log_Fatal "no github repos specified"
        else ret tt)
       (fun _ =>
          bind (forRange (repos flags) (repoStep flags remote (initClients flags)))
               (fun _ => bind (Println "Finished.") (fun _ => os_Exit 0))) t.
Proof. reflexivity. Qed.

(** [main] is the guard on the repository list, the loop, and the exit:
    what holds of the loop carries over to the run. *)
Lemma main_spec (Q1 Q : list Event -> Outcome unit -> Prop) :
  (repos flags = [] -> Q [] (Halt (Fatal "no github repos specified"))) ->
  run_spec (forRange (repos flags) (repoStep flags remote (initClients flags))) Q1 ->
  (forall n s, repos flags <> [] -> Q1 n (Halt s) -> (forall c, s <> Exit c) ->
               Q n (Halt s)) ->
  (forall n, repos flags <> [] -> Q1 n (Ret tt) -> Q (n ++ [EvPrint finished]) (Halt (Exit 0))) ->
  run_spec (main flags remote) Q.
Proof.
  intros Hempty Hloop Hhalt Hdone.
  eapply run_spec_ext; [apply main_split|].
  destruct (repos flags) as [|r rs] eqn:Hrepos.
  - eapply run_spec_ext; [intros t; apply bind_halt_l|].
    apply run_spec_halt. apply Hempty. reflexivity.
  - assert (Hguard : (Z.of_nat (length (r :: rs)) <? 1)%Z = false)
      by (apply Z.ltb_ge; cbn [length]; lia).
    rewrite Hguard.
    eapply run_spec_ext; [intros t; apply bind_ret_l|].
    assert (Hne : forall t c,
               fst (forRange (r :: rs) (repoStep flags remote (initClients flags)) t)
               <> Halt (Exit c)).
    { apply neverExits_forRange. intros repo. apply repoStep_neverExits. }
    apply run_spec_bind
      with (1 := run_spec_and_outcome _ Q1 (fun o => forall c, o <> Halt (Exit c))
                                      Hloop Hne).
    + intros n1 s [H1 Hs]. apply Hhalt; auto; [discriminate|].
      intros c ->. apply (Hs c). reflexivity.
    + intros n1 [] [H1 _]. unfold Println.
      apply run_spec_bind_emit. apply run_spec_halt.
      change (EvPrint ("Finished." ++ LF)%string :: []) with [EvPrint finished].
      apply Hdone; [discriminate | exact H1].
Qed.

Lemma repos_loop_failStop :
  satisfies (forRange (repos flags) (repoStep flags remote (initClients flags))) failStop.
Proof.
  pose proof failStop_Sequential as HS.
  apply satisfies_forRange; [exact HS|]. intros repo _. unfold repoStep.
  apply satisfies_bind; [exact HS | | intros _].
  { apply failStop_of_always. repeat always_step. intros; cbn; tauto. }
  apply run_spec_bind_ListByRepo. intros [iss|e].
  - apply satisfies_weaken with (P := failStop).
    + apply satisfies_bind; [exact HS | | intros _].
      { apply failStop_of_always. repeat always_step. intros; cbn; tauto. }
      apply satisfies_forRange; [exact HS|]. intros is_ _.
      apply migrateIssue_failStop.
    + intros n o Hn. apply failStop_cons; [cbn; tauto | exact Hn].
  - apply failStop_failed. reflexivity.
Qed.

(** Once the flags are parsed, a run never falls off the end: it stops at
    a fatal error, at a panic or at [os.Exit].  It exits only with status
    0, and then the repository list was not empty, no remote call failed,
    and [Finished.] is the last thing printed. *)
Lemma parsed_exit_status :
  exists s : Stop,
    fst (main flags remote []) = Halt s /\
    forall c, s = Exit c ->
      c = 0%Z /\
      repos flags <> [] /\
      Forall (fun e => ~ failed e) (snd (main flags remote [])) /\
      exists pre, snd (main flags remote []) = pre ++ [EvPrint finished].
Proof.
  assert (H : run_spec (main flags remote)
                (fun n o =>
                   exists s, o = Halt s /\
                     forall c, s = Exit c ->
                       c = 0%Z /\ repos flags <> [] /\
                       Forall (fun e => ~ failed e) n /\
                       exists pre, n = pre ++ [EvPrint finished])).
  { apply main_spec with (Q1 := fun n o => failStop n (stopped o)).
    - intros _. eexists. split; [reflexivity|]. discriminate.
    - apply repos_loop_failStop.
    - intros n s _ _ Hs. exists s. split; [reflexivity|].
      intros c ->. destruct (Hs c). reflexivity.
    - intros n Hne [Hno|(pre & ev & msg & _ & _ & _ & Ho)]; [|discriminate].
      eexists. split; [reflexivity|]. intros c Hc. injection Hc as <-.
      repeat split; auto.
      + apply Forall_app. split; [exact Hno|]. repeat constructor. cbn. tauto.
      + exists n. reflexivity. }
  destruct (H []) as (new & Hnew & s & Hs & Hexit). cbn [app] in Hnew.
  exists s. split; [exact Hs|]. rewrite Hnew. exact Hexit.
Qed.

End MainSkeleton.

(** ** The parameters of the calls *)

Section Configured.

Context {L : Lib}.
Variable flags : Flags.
Variable remote : Remote.

Lemma migrateIssue_configured (cl : Clients) (repo : string) (is_ : github.Issue.t) :
  In repo (repos flags) ->
  satisfies (migrateIssue flags remote cl repo is_) (always (configured flags)).
Proof.
  intros Hin. unfold migrateIssue, migrateComment.
  repeat always_step; try (intros s; exact I).
  - apply printIssue_always. intros s; exact I.
  - apply printStory_always. intros s; exact I.
  - apply Create_always. intros r. reflexivity.
  - apply ListComments_always. intros r. cbn. auto.
  - apply satisfies_forRange; [apply always_Sequential|]. intros cm _.
    repeat always_step.
    + apply printIssueComment_always. intros s; exact I.
    + apply printStoryComment_always. intros s; exact I.
    + apply AddComment_always. intros r. reflexivity.
Qed.

Lemma main_configured : satisfies (main flags remote) (always (configured flags)).
Proof.
  unfold main. repeat always_step; try (intros s; exact I).
  apply satisfies_forRange; [apply always_Sequential|].
  intros repo Hin. repeat always_step; try (intros s; exact I).
  - apply ListByRepo_always. intros r. cbn. auto.
  - apply satisfies_forRange; [apply always_Sequential|].
    intros is_ _. apply migrateIssue_configured. exact Hin.
Qed.

(** X8: every remote call of a run of [main] carries the configured
    parameters: issues are listed for the configured owner and one of the
    configured repositories, in state [open] with the limit as page size;
    comments for that owner and such a repository with page size 1000;
    stories are created and comments attached in the configured project
    only. *)
Theorem calls_configured : Forall (configured flags) (snd (main flags remote [])).
Proof.
  destruct (main_configured []) as (new & Hnew & Hall).
  rewrite Hnew. exact Hall.
Qed.

End Configured.

(** ** The repositories, in order *)

Lemma listedRepos_app (t1 t2 : list Event) :
  listedRepos (t1 ++ t2) = listedRepos t1 ++ listedRepos t2.
Proof. apply flat_map_app. Qed.

Lemma listedRepos_none (t : list Event) :
  Forall (fun e => match e with EvListByRepo _ _ _ _ _ => False | _ => True end) t ->
  listedRepos t = [].
Proof.
  induction 1 as [|e t He _ IH]; [reflexivity|].
  unfold listedRepos in *. cbn. rewrite IH. destruct e; try reflexivity. contradiction.
Qed.

Section ReposInOrder.

Context {L : Lib}.
Variable flags : Flags.
Variable remote : Remote.

Lemma migrateIssue_lists_nothing (cl : Clients) (repo : string) (is_ : github.Issue.t) :
  satisfies (migrateIssue flags remote cl repo is_)
            (always (fun e => match e with EvListByRepo _ _ _ _ _ => False | _ => True end)).
Proof. apply migrateIssue_always; intros; exact I. Qed.

Lemma repoStep_lists_one (cl : Clients) (repo : string) :
  run_spec (repoStep flags remote cl repo) (fun n _ => listedRepos n = [repo]).
Proof.
  unfold repoStep, Printf.
  apply run_spec_bind_emit, run_spec_bind_ListByRepo. intros [iss|e].
  - apply satisfies_weaken
      with (P := always (fun e => match e with
                                  | EvListByRepo _ _ _ _ _ => False
                                  | _ => True
                                  end)).
    + repeat always_step; [exact I|].
      apply satisfies_forRange; [apply always_Sequential|]. intros is_ _.
      apply migrateIssue_lists_nothing.
    + intros n o Hn.
      change (listedRepos ([EvPrint (Sprintf ("Analysing repo: %s/%s" ++ LF)
                                             [ArgString (owner flags); ArgString repo]);
                            EvListByRepo (owner flags) repo "open" (limit flags) (ok iss)]
                             ++ n) = [repo]).
      rewrite listedRepos_app, (listedRepos_none n Hn). reflexivity.
  - apply run_spec_halt. reflexivity.
Qed.

Lemma repos_loop_lists (cl : Clients) (rs : list string) :
  run_spec (forRange rs (repoStep flags remote cl))
           (fun n o => exists done rest,
                rs = done ++ rest /\ listedRepos n = done /\
                (o = Ret tt -> rest = [])).
Proof.
  induction rs as [|r rs IH]; cbn [forRange].
  - apply run_spec_ret. exists [], []. auto.
  - apply run_spec_bind with (1 := repoStep_lists_one cl r).
    + intros n1 s H1. exists [r], rs. repeat split; auto. discriminate.
    + intros n1 [] H1. apply run_spec_weaken with (1 := IH).
      intros n2 o (done & rest & -> & Hdone & Hrest).
      exists (r :: done), rest. rewrite listedRepos_app, H1, Hdone. auto.
Qed.

(** X9: the repositories are listed in the configured order, each at most
    once: the repositories of the [ListByRepo] calls of a run are an
    initial part of the configured list, and the whole list when the run
    exits with status 0. *)
Theorem repos_listed_in_order :
  exists rest : list string,
    repos flags = listedRepos (snd (main flags remote [])) ++ rest /\
    (fst (main flags remote []) = Halt (Exit 0) -> rest = []).
Proof.
  assert (H : run_spec (main flags remote)
                (fun n o => exists rest, repos flags = listedRepos n ++ rest /\
                                         (o = Halt (Exit 0) -> rest = []))).
  { eapply main_spec.
    - intros Hempty. exists []. rewrite Hempty. auto.
    - apply repos_loop_lists.
    - intros n s _ (done & rest & Hrs & Hdone & _) Hs. cbn beta.
      exists rest. rewrite Hdone. split; [exact Hrs|].
      intros Heq. injection Heq as ->. destruct (Hs 0%Z). reflexivity.
    - intros n _ (done & rest & Hrs & Hdone & Hrest). cbn beta.
      exists []. rewrite listedRepos_app, Hdone. cbn.
      rewrite (Hrest eq_refl), !app_nil_r in *. auto. }
  destruct (H []) as (new & Hnew & Hres). cbn [app] in Hnew.
  rewrite Hnew. exact Hres.
Qed.

End ReposInOrder.

(** ** Every fetched issue becomes one story *)

Lemma createdRequests_app (t1 t2 : list Event) :
  createdRequests (t1 ++ t2) = createdRequests t1 ++ createdRequests t2.
Proof. apply flat_map_app. Qed.

Lemma fetchedConversions_app {L : Lib} (t1 t2 : list Event) :
  fetchedConversions (t1 ++ t2) = fetchedConversions t1 ++ fetchedConversions t2.
Proof. apply flat_map_app. Qed.

Lemma attached_no_story {L : Lib} (p s : Z) (cms : list github.IssueComment.t)
      (adds : list Event) :
  Forall2 (attached p s) cms adds ->
  createdRequests adds = [] /\ fetchedConversions adds = [].
Proof.
  induction 1 as [|cm e cms adds (c & r & _ & ->) _ [IH1 IH2]].
  - split; reflexivity.
  - unfold createdRequests, fetchedConversions in *. cbn. rewrite IH1, IH2. auto.
Qed.

Section CreatesFetched.

Context {L : Lib}.
Variable flags : Flags.
Variable remote : Remote.
Hypothesis Hlive : dryRun flags = false.

Lemma migrateIssue_creates_one (cl : Clients) (repo : string) (is_ : github.Issue.t) :
  run_spec (migrateIssue flags remote cl repo is_)
           (fun n o => o = Ret tt ->
                       map Some (createdRequests n) = [convertIssue repo is_] /\
                       fetchedConversions n = []).
Proof.
  apply run_spec_weaken with (1 := migrateIssue_live_returns flags remote cl Hlive repo is_).
  intros n o H Ho.
  destruct (H Ho) as (sr & story & number & cms & adds & Hsr & _ & Hadds & ->).
  destruct (attached_no_story _ _ _ _ Hadds) as [Hc Hf].
  rewrite createdRequests_app, fetchedConversions_app.
  rewrite createdRequests_app, fetchedConversions_app, Hc, Hf, Hsr.
  split; reflexivity.
Qed.

Lemma issues_loop_creates (cl : Clients) (repo : string) (iss : list github.Issue.t) :
  run_spec (forRange iss (fun is_ => migrateIssue flags remote cl repo is_))
           (fun n o => o = Ret tt ->
                       map Some (createdRequests n) = map (convertIssue repo) iss /\
                       fetchedConversions n = []).
Proof.
  eapply run_spec_weaken.
  - apply forRange_returns
      with (R := fun is_ n => map Some (createdRequests n) = [convertIssue repo is_] /\
                              fetchedConversions n = []).
    intros is_. apply migrateIssue_creates_one.
  - intros n o H Ho. destruct (H Ho) as (parts & Hparts & ->). clear H Ho.
    induction Hparts as [|is_ part iss parts [H1 H2] _ [IH1 IH2]]; [auto|].
    cbn [concat]. rewrite createdRequests_app, fetchedConversions_app, map_app.
    rewrite H1, H2, IH1, IH2. auto.
Qed.

Lemma repoStep_creates (cl : Clients) (repo : string) :
  run_spec (repoStep flags remote cl repo)
           (fun n o => o = Ret tt ->
                       map Some (createdRequests n) = fetchedConversions n).
Proof.
  unfold repoStep, Printf.
  apply run_spec_bind_emit, run_spec_bind_ListByRepo. intros [iss|e].
  - apply run_spec_bind_emit.
    apply run_spec_weaken with (1 := issues_loop_creates cl repo iss).
    intros n o H Ho. destruct (H Ho) as [H1 H2].
    unfold createdRequests, fetchedConversions in *. cbn.
    rewrite H1, H2, app_nil_r. reflexivity.
  - apply run_spec_halt. discriminate.
Qed.

Lemma repos_loop_creates (cl : Clients) (rs : list string) :
  run_spec (forRange rs (repoStep flags remote cl))
           (fun n o => o = Ret tt ->
                       map Some (createdRequests n) = fetchedConversions n).
Proof.
  eapply run_spec_weaken.
  - apply forRange_returns
      with (R := fun (_ : string) n => map Some (createdRequests n) = fetchedConversions n).
    intros repo. apply repoStep_creates.
  - intros n o H Ho. destruct (H Ho) as (parts & Hparts & ->). clear H Ho.
    induction Hparts as [|repo part rs parts H1 _ IH]; [reflexivity|].
    cbn [concat]. rewrite createdRequests_app, fetchedConversions_app, map_app.
    rewrite H1, IH. reflexivity.
Qed.

(** X10: in a live run that exits with status 0, the requests of the
    [Create] calls are, in order, the conversions of the issues the
    [ListByRepo] calls returned: every fetched issue was converted and sent
    once, none was skipped, and nothing else was created. *)
Theorem live_creates_fetched :
  fst (main flags remote []) = Halt (Exit 0) ->
  map Some (createdRequests (snd (main flags remote []))) =
  fetchedConversions (snd (main flags remote [])).
Proof.
  assert (H : run_spec (main flags remote)
                (fun n o => o = Halt (Exit 0) ->
                            map Some (createdRequests n) = fetchedConversions n)).
  { eapply main_spec.
    - intros _. discriminate.
    - apply repos_loop_creates.
    - intros n s _ _ Hs Heq. injection Heq as ->. destruct (Hs 0%Z). reflexivity.
    - intros n _ Hn _. cbn beta in Hn.
      rewrite createdRequests_app, fetchedConversions_app, map_app, (Hn eq_refl).
      reflexivity. }
  destruct (H []) as (new & Hnew & Hres). cbn [app] in Hnew.
  rewrite Hnew. exact Hres.
Qed.

End CreatesFetched.

(** ** Runs against services that never fail *)

Lemma forRange_all_return {A : Type} (P : A -> Prop) (l : list A) (body : A -> M unit) :
  Forall P l ->
  (forall x, P x -> run_spec (body x) (fun _ o => o = Ret tt)) ->
  run_spec (forRange l body) (fun _ o => o = Ret tt).
Proof.
  intros Hall Hbody. induction Hall as [|x l Hx _ IH]; cbn [forRange].
  - apply run_spec_ret. reflexivity.
  - apply run_spec_bind with (1 := Hbody x Hx).
    + intros n1 s H. discriminate.
    + intros n1 [] _. exact IH.
Qed.

Section Reliable.

Context {L : Lib}.
Variable flags : Flags.
Variable remote : Remote.
Variable cl : Clients.
Hypothesis Hreliable : reliable remote.

Context {B : Type}.
Variable Q : list Event -> Outcome B -> Prop.

Lemma run_spec_bind_ListByRepo_ok (o repo state : string) (perPage : Z)
      (k : result (list github.Issue.t) -> M B) :
  (forall iss, Forall completeIssue iss ->
               run_spec (k (ok iss))
                        (fun n out => Q (EvListByRepo o repo state perPage (ok iss) :: n) out)) ->
  run_spec (bind (ghSvc_ListByRepo remote cl o repo state perPage) k) Q.
Proof.
  intros Hk t. unfold bind, ghSvc_ListByRepo. cbn zeta.
  destruct Hreliable as (Hr & _).
  destruct (Hr cl t o repo state perPage) as (iss & -> & Hiss).
  destruct (Hk iss Hiss (t ++ [EvListByRepo o repo state perPage (ok iss)]))
    as (n & Hn & HQ).
  eexists. rewrite Hn, <- app_assoc. split; [reflexivity | exact HQ].
Qed.

Lemma run_spec_bind_ListComments_ok (o repo : string) (number perPage : Z)
      (k : result (list github.IssueComment.t) -> M B) :
  (forall cms, Forall completeComment cms ->
               run_spec (k (ok cms))
                        (fun n out => Q (EvListComments o repo number perPage (ok cms) :: n) out)) ->
  run_spec (bind (ghSvc_ListComments remote cl o repo number perPage) k) Q.
Proof.
  intros Hk t. unfold bind, ghSvc_ListComments. cbn zeta.
  destruct Hreliable as (_ & Hr & _).
  destruct (Hr cl t o repo number perPage) as (cms & -> & Hcms).
  destruct (Hk cms Hcms (t ++ [EvListComments o repo number perPage (ok cms)]))
    as (n & Hn & HQ).
  eexists. rewrite Hn, <- app_assoc. split; [reflexivity | exact HQ].
Qed.

Lemma run_spec_bind_Create_ok (projId : Z) (req : pivotal.StoryRequest.t)
      (k : result pivotal.Story.t -> M B) :
  (forall story, run_spec (k (ok story))
                          (fun n out => Q (EvCreate projId req (ok story) :: n) out)) ->
  run_spec (bind (ptSvc_Create remote cl projId req) k) Q.
Proof.
  intros Hk t. unfold bind, ptSvc_Create. cbn zeta.
  destruct Hreliable as (_ & _ & Hr & _).
  destruct (Hr cl t projId req) as (story & ->).
  destruct (Hk story (t ++ [EvCreate projId req (ok story)])) as (n & Hn & HQ).
  eexists. rewrite Hn, <- app_assoc. split; [reflexivity | exact HQ].
Qed.

Lemma run_spec_bind_AddComment_ok (projId storyId : Z) (req : pivotal.Comment.t)
      (k : result pivotal.Comment.t -> M B) :
  (forall c, run_spec (k (ok c))
                      (fun n out => Q (EvAddComment projId storyId req (ok c) :: n) out)) ->
  run_spec (bind (ptSvc_AddComment remote cl projId storyId req) k) Q.
Proof.
  intros Hk t. unfold bind, ptSvc_AddComment. cbn zeta.
  destruct Hreliable as (_ & _ & _ & Hr).
  destruct (Hr cl t projId storyId req) as (c & ->).
  destruct (Hk c (t ++ [EvAddComment projId storyId req (ok c)])) as (n & Hn & HQ).
  eexists. rewrite Hn, <- app_assoc. split; [reflexivity | exact HQ].
Qed.

End Reliable.

Section ReliableRuns.

Context {L : Lib}.
Variable flags : Flags.
Variable remote : Remote.
Hypothesis Hreliable : reliable remote.

Lemma completeComment_converts (cm : github.IssueComment.t) :
  completeComment cm ->
  exists c user login created body,
    convertComment cm = Some c /\
    github.IssueComment.User cm = Some user /\
    github.User.Login user = Some login /\
    github.IssueComment.CreatedAt cm = Some created /\
    github.IssueComment.Body cm = Some body.
Proof.
  intros (Hb & Hu & Hc & user & login & Hus & Hl).
  destruct (github.IssueComment.Body cm) as [body|] eqn:Eb; [|congruence].
  destruct (github.IssueComment.HTMLURL cm) as [url|] eqn:Eu; [|congruence].
  destruct (github.IssueComment.CreatedAt cm) as [created|] eqn:Ec; [|congruence].
  eexists _, user, login, created, body.
  split; [apply (convertComment_present cm user url login body created); auto|].
  auto.
Qed.

Lemma migrateComment_returns (cl : Clients) (newStory : option pivotal.Story.t)
      (cm : github.IssueComment.t) :
  completeComment cm ->
  (dryRun flags = false -> newStory <> None) ->
  run_spec (migrateComment flags remote cl newStory cm) (fun _ o => o = Ret tt).
Proof.
  intros Hcm Hstory.
  destruct (completeComment_converts cm Hcm)
    as (c & user & login & created & body & Hc & Hus & Hl & Hcr & Hb).
  unfold migrateComment. rewrite Hc.
  eapply run_spec_ext; [intros t; apply bind_ret_l|].
  destruct (dryRun flags).
  - apply run_spec_bind_known
      with (1 := fun t => printIssueComment_run cm user login body created t Hus Hl Hcr Hb).
    apply run_spec_known with (1 := printStoryComment_run c). reflexivity.
  - destruct newStory as [story|]; [|destruct (Hstory eq_refl); reflexivity].
    eapply run_spec_ext; [intros t; apply bind_ret_l|].
    apply (run_spec_bind_AddComment_ok remote cl Hreliable). intros c'.
    apply run_spec_ret. reflexivity.
Qed.

Lemma migrateIssue_returns (cl : Clients) (repo : string) (is_ : github.Issue.t) :
  completeIssue is_ ->
  run_spec (migrateIssue flags remote cl repo is_) (fun _ o => o = Ret tt).
Proof.
  intros (Hn & Ht & Hb & Hu & Hc).
  destruct (github.Issue.Number is_) as [number|] eqn:En; [|congruence].
  destruct (github.Issue.Title is_) as [title|] eqn:Et; [|congruence].
  destruct (github.Issue.Body is_) as [body|] eqn:Eb; [|congruence].
  destruct (github.Issue.HTMLURL is_) as [url|] eqn:Eu; [|congruence].
  destruct (github.Issue.CreatedAt is_) as [created|] eqn:Ec; [|congruence].
  pose proof (convertIssue_present repo is_ url body title created Eu Ec Eb Et) as Hsr.
  match type of Hsr with _ = Some ?x => set (sr := x) in Hsr end.
  assert (Hlabels : pivotal.StoryRequest.Labels sr =
                    Some [ {| pivotal.Label.Name := "github-migrated" |};
                           {| pivotal.Label.Name := ("github-repo/" ++ repo)%string |} ])
    by reflexivity.
  clearbody sr.
  unfold migrateIssue, Println, Printf. rewrite Hsr, En.
  apply run_spec_bind_emit.
  eapply run_spec_ext; [intros t; apply bind_ret_l|].
  assert (Htail : forall newStory,
             (dryRun flags = false -> newStory <> None) ->
             run_spec
               (bind (deref (Some number)) (fun number0 =>
                bind (ghSvc_ListComments remote cl (owner flags) repo number0 1000) (fun r =>
                match r with
                | ok ghComments =>
                    bind (emit (EvPrint (Sprintf "found %d comments for issue number: %d"
                                           [ArgInt (Z.of_nat (length ghComments));
                                            ArgInt number0])))
                         (fun _ =>
                    bind (forRange ghComments (migrateComment flags remote cl newStory))
                         (fun _ => emit (EvPrint ((LF ++ "===== end =====" ++ LF) ++ LF)%string)))
                | err e =>
                    log_Fatalf "failed to list gh comments for repo: %s, issue %d: error: %v"
                               [ArgString repo; ArgInt number0; ArgError e]
                end)))
               (fun _ o => o = Ret tt)).
  { intros newStory Hstory.
    eapply run_spec_ext; [intros t; apply bind_ret_l|].
    apply (run_spec_bind_ListComments_ok remote cl Hreliable). intros cms Hcms.
    apply run_spec_bind_emit.
    eapply run_spec_bind.
    - apply forRange_all_return with (1 := Hcms). intros cm Hcm.
      apply migrateComment_returns; assumption.
    - intros n1 s H. discriminate.
    - intros n1 [] _. apply run_spec_emit. reflexivity. }
  destruct (dryRun flags) eqn:Hd.
  - apply run_spec_bind_assoc.
    apply run_spec_bind_known
      with (1 := fun t => printIssue_run is_ number title url created t En Et Eu Ec).
    apply run_spec_bind_assoc.
    apply run_spec_bind_known
      with (1 := fun t => printStory_run sr _ t Hlabels).
    eapply run_spec_ext; [intros t; apply bind_ret_l|].
    apply run_spec_weaken with (1 := Htail None ltac:(discriminate)). auto.
  - apply run_spec_bind_assoc.
    apply (run_spec_bind_Create_ok remote cl Hreliable). intros story.
    eapply run_spec_ext; [intros t; apply bind_ret_l|].
    apply run_spec_weaken with (1 := Htail (Some story) ltac:(discriminate)). auto.
Qed.

Lemma repos_loop_returns (cl : Clients) (rs : list string) :
  run_spec (forRange rs (repoStep flags remote cl)) (fun _ o => o = Ret tt).
Proof.
  apply forRange_all_return with (P := fun _ => True).
  - clear. induction rs; constructor; auto.
  - intros repo _. unfold repoStep, Printf.
    apply run_spec_bind_emit.
    apply (run_spec_bind_ListByRepo_ok remote cl Hreliable). intros iss Hiss.
    apply run_spec_bind_emit.
    apply forRange_all_return with (1 := Hiss). intros is_ His.
    apply migrateIssue_returns. exact His.
Qed.

(** X11: against services that never return an error and only return
    issues and comments with every field set, a run of [main] over a
    list of repositories that is not empty goes through and exits with
    status 0, in dry-run and in live mode. *)
Theorem reliable_run_exits_zero :
  repos flags <> [] -> fst (main flags remote []) = Halt (Exit 0).
Proof.
  intros Hne.
  assert (H : run_spec (main flags remote) (fun _ o => o = Halt (Exit 0))).
  { apply main_spec with (Q1 := fun _ o => o = Ret tt).
    - intros Hempty. contradiction.
    - apply repos_loop_returns.
    - intros n s _ Hs. discriminate.
    - intros n _ _. reflexivity. }
  destruct (H []) as (new & _ & Hres). exact Hres.
Qed.

End ReliableRuns.

(** ** A dry run rehearses the live run *)

Lemma reads_app (t1 t2 : list Event) : reads (t1 ++ t2) = reads t1 ++ reads t2.
Proof. apply filter_app. Qed.

Section AgreeRules.

Context {A B : Type}.

Lemma agree_ext (m1 m1' m2 m2' : M A) :
  (forall t, m1 t = m1' t) -> (forall t, m2 t = m2' t) ->
  agree m1' m2' -> agree m1 m2.
Proof. intros H1 H2 H t1 t2. rewrite H1, H2. apply H. Qed.

Lemma agree_ret (a : A) : agree (ret a) (ret a).
Proof. intros t1 t2. exists [], []. cbn. rewrite !app_nil_r. auto. Qed.

Lemma agree_halt (s : Stop) : agree (@halt A s) (@halt A s).
Proof. intros t1 t2. exists [], []. cbn. rewrite !app_nil_r. auto. Qed.

Lemma agree_deref (p : option A) : agree (deref p) (deref p).
Proof. destruct p; [apply agree_ret | apply agree_halt]. Qed.

Lemma agree_bind (m1 m2 : M A) (k1 k2 : A -> M B) :
  agree m1 m2 -> (forall a, agree (k1 a) (k2 a)) -> agree (bind m1 k1) (bind m2 k2).
Proof.
  intros Hm Hk t1 t2. unfold bind.
  destruct (Hm t1 t2) as (n1 & n2 & H1 & H2 & Hr & Ho).
  destruct (m1 t1) as [o1 u1], (m2 t2) as [o2 u2]. cbn in H1, H2, Ho. subst.
  destruct o2 as [a|s].
  - destruct (Hk a (t1 ++ n1) (t2 ++ n2)) as (n1' & n2' & H1' & H2' & Hr' & Ho').
    exists (n1 ++ n1'), (n2 ++ n2').
    rewrite H1', H2', !app_assoc, !reads_app, Hr, Hr'. auto.
  - exists n1, n2. auto.
Qed.

Lemma agree_stops (m1 m2 : M A) (s : Stop) :
  stopsQuietly m1 s -> stopsQuietly m2 s -> agree m1 m2.
Proof.
  intros H1 H2 t1 t2.
  destruct (H1 t1) as (n1 & E1 & R1), (H2 t2) as (n2 & E2 & R2).
  exists n1, n2. rewrite E1, E2, R1, R2. auto.
Qed.

End AgreeRules.

Lemma agree_emit (e : Event) : agree (emit e) (emit e).
Proof. intros t1 t2. exists [e], [e]. auto. Qed.

Lemma agree_quiet_bind {A1 A2 B : Type} (m1 : M A1) (m2 : M A2)
      (P1 : A1 -> Prop) (P2 : A2 -> Prop) (k1 : A1 -> M B) (k2 : A2 -> M B) :
  quiet m1 P1 -> quiet m2 P2 ->
  (forall a1 a2, P1 a1 -> P2 a2 -> agree (k1 a1) (k2 a2)) ->
  agree (bind m1 k1) (bind m2 k2).
Proof.
  intros H1 H2 Hk t1 t2. unfold bind.
  destruct (H1 t1) as (n1 & a1 & E1 & R1 & Pa1).
  destruct (H2 t2) as (n2 & a2 & E2 & R2 & Pa2).
  rewrite E1, E2.
  destruct (Hk a1 a2 Pa1 Pa2 (t1 ++ n1) (t2 ++ n2)) as (n1' & n2' & F1 & F2 & Hr & Ho).
  exists (n1 ++ n1'), (n2 ++ n2').
  rewrite F1, F2, !app_assoc, !reads_app, R1, R2, Hr. auto.
Qed.

Lemma agree_quiet {A1 A2 : Type} (m1 : M A1) (m2 : M A2)
      (P1 : A1 -> Prop) (P2 : A2 -> Prop) :
  quiet m1 P1 -> quiet m2 P2 ->
  agree (bind m1 (fun _ => ret tt)) (bind m2 (fun _ => ret tt)).
Proof.
  intros H1 H2. apply agree_quiet_bind with (1 := H1) (2 := H2).
  intros; apply agree_ret.
Qed.

Lemma agree_forRange {A : Type} (l : list A) (b1 b2 : A -> M unit) :
  (forall x, agree (b1 x) (b2 x)) -> agree (forRange l b1) (forRange l b2).
Proof.
  intros Hb. induction l as [|x l IH]; cbn [forRange].
  - apply agree_ret.
  - apply agree_bind; auto.
Qed.

Lemma stopsQuietly_bind_quiet {A B : Type} (m : M A) (P : A -> Prop) (k : A -> M B)
      (s : Stop) :
  quiet m P -> (forall a, P a -> stopsQuietly (k a) s) -> stopsQuietly (bind m k) s.
Proof.
  intros Hm Hk t. unfold bind.
  destruct (Hm t) as (n & a & E & R & Pa). rewrite E.
  destruct (Hk a Pa (t ++ n)) as (n' & E' & R').
  exists (n ++ n'). rewrite E', app_assoc, reads_app, R, R'. auto.
Qed.

Lemma stopsQuietly_halt {A : Type} (s : Stop) : stopsQuietly (@halt A s) s.
Proof. intros t. exists []. cbn. rewrite app_nil_r. auto. Qed.

Lemma quiet_emit (e : Event) : isRead e = false -> quiet (emit e) (fun _ => True).
Proof.
  intros He t. exists [e], tt. unfold reads. cbn. rewrite He. auto.
Qed.

Lemma quiet_known {A : Type} (m : M A) (a : A) (e : Event) (P : A -> Prop) :
  (forall t, m t = (Ret a, t ++ [e])) -> isRead e = false -> P a -> quiet m P.
Proof.
  intros Hm He Pa t. exists [e], a. unfold reads. cbn. rewrite Hm, He. auto.
Qed.

Lemma quiet_bind {A B : Type} (m : M A) (k : A -> M B) (P : A -> Prop) (Q : B -> Prop) :
  quiet m P -> (forall a, P a -> quiet (k a) Q) -> quiet (bind m k) Q.
Proof.
  intros Hm Hk t. unfold bind.
  destruct (Hm t) as (n & a & E & R & Pa). rewrite E.
  destruct (Hk a Pa (t ++ n)) as (n' & b & E' & R' & Qb).
  exists (n ++ n'), b. rewrite E', app_assoc, reads_app, R, R'. auto.
Qed.

Lemma quiet_ret {A : Type} (a : A) (P : A -> Prop) : P a -> quiet (ret a) P.
Proof. intros Pa t. exists [], a. cbn. rewrite app_nil_r. auto. Qed.

Lemma agree_quiet_unit (m1 m2 : M unit) (P1 P2 : unit -> Prop) :
  quiet m1 P1 -> quiet m2 P2 -> agree m1 m2.
Proof.
  intros H1 H2 t1 t2.
  destruct (H1 t1) as (n1 & [] & E1 & R1 & _), (H2 t2) as (n2 & [] & E2 & R2 & _).
  exists n1, n2. rewrite E1, E2, R1, R2. auto.
Qed.

Section Rehearsal.

Context {L : Lib}.
Variable flags : Flags.
Variable remote : Remote.
Hypothesis Hsteady : steady remote.

Lemma agree_ListByRepo (cl : Clients) (o repo st : string) (pp : Z) :
  agree (ghSvc_ListByRepo remote cl o repo st pp) (ghSvc_ListByRepo remote cl o repo st pp).
Proof.
  intros t1 t2. unfold ghSvc_ListByRepo. cbn zeta.
  destruct Hsteady as (Hr & _). rewrite (Hr cl t1 t2).
  eexists [_], [_]. cbn. auto.
Qed.

Lemma agree_ListComments (cl : Clients) (o repo : string) (number pp : Z) :
  agree (ghSvc_ListComments remote cl o repo number pp)
        (ghSvc_ListComments remote cl o repo number pp).
Proof.
  intros t1 t2. unfold ghSvc_ListComments. cbn zeta.
  destruct Hsteady as (_ & Hr & _). rewrite (Hr cl t1 t2).
  eexists [_], [_]. cbn. auto.
Qed.

Lemma quiet_Create (cl : Clients) (p : Z) (req : pivotal.StoryRequest.t) :
  quiet (ptSvc_Create remote cl p req) (fun r => exists story, r = ok story).
Proof.
  intros t. unfold ptSvc_Create. cbn zeta.
  destruct Hsteady as (_ & _ & Hc & _). destruct (Hc cl t p req) as (story & ->).
  eexists [_], _. repeat split. eauto.
Qed.

Lemma quiet_AddComment (cl : Clients) (p s : Z) (c : pivotal.Comment.t) :
  quiet (ptSvc_AddComment remote cl p s c) (fun r => exists c', r = ok c').
Proof.
  intros t. unfold ptSvc_AddComment. cbn zeta.
  destruct Hsteady as (_ & _ & _ & Ha). destruct (Ha cl t p s c) as (c' & ->).
  eexists [_], _. repeat split. eauto.
Qed.

Lemma migrateComment_agree (cl : Clients) (story : pivotal.Story.t)
      (cm : github.IssueComment.t) :
  agree (migrateComment (setDryRun true flags) remote cl None cm)
        (migrateComment (setDryRun false flags) remote cl (Some story) cm).
Proof.
  unfold migrateComment. cbn [dryRun setDryRun ptProjId].
  destruct (convertComment cm) as [c|] eqn:Hc.
  - destruct (convertComment_Some_inv cm c Hc)
      as (url & created & user & login & body & Hu & Hcr & Hus & Hl & Hb & _).
    eapply agree_ext; [intros t; apply bind_ret_l | intros t; apply bind_ret_l |].
    eapply agree_quiet_unit with (P1 := fun _ => True) (P2 := fun _ => True).
    + eapply quiet_bind.
      * apply quiet_known
          with (1 := fun t => printIssueComment_run cm user login body created t Hus Hl Hcr Hb)
               (P := fun _ => True); auto.
      * intros _ _. apply quiet_known with (1 := printStoryComment_run c); auto.
    + eapply quiet_bind; [apply quiet_ret with (P := fun _ => True); exact I|].
      intros s _. eapply quiet_bind; [apply quiet_AddComment|].
      intros r (c' & ->). apply quiet_ret. exact I.
  - eapply agree_ext; [intros t; apply bind_halt_l | intros t; apply bind_halt_l |].
    apply agree_halt.
Qed.

Lemma migrateIssue_agree (cl : Clients) (repo : string) (is_ : github.Issue.t) :
  agree (migrateIssue (setDryRun true flags) remote cl repo is_)
        (migrateIssue (setDryRun false flags) remote cl repo is_).
Proof.
  unfold migrateIssue, Println, Printf. cbn [dryRun setDryRun ptProjId owner].
  apply agree_bind; [apply agree_emit | intros _].
  destruct (convertIssue repo is_) as [sr|] eqn:Hsr.
  2:{ eapply agree_ext; [intros t; apply bind_halt_l | intros t; apply bind_halt_l |].
      apply agree_halt. }
  destruct (convertIssue_Some_inv repo is_ sr Hsr)
    as (url & created & body & title & Hu & Hc & Hb & Ht & Hsreq).
  assert (Hlabels : pivotal.StoryRequest.Labels sr =
                    Some [ {| pivotal.Label.Name := "github-migrated" |};
                           {| pivotal.Label.Name := ("github-repo/" ++ repo)%string |} ])
    by (rewrite Hsreq; reflexivity).
  eapply agree_ext; [intros t; apply bind_ret_l | intros t; apply bind_ret_l |].
  destruct (github.Issue.Number is_) as [number|] eqn:Hn.
  - eapply agree_quiet_bind
      with (P1 := fun a => a = None) (P2 := fun a => exists story, a = Some story).
    + eapply quiet_bind.
      * apply quiet_known
          with (1 := fun t => printIssue_run is_ number title url created t Hn Ht Hu Hc)
               (P := fun _ => True); auto.
      * intros _ _. eapply quiet_bind.
        -- apply quiet_known with (1 := fun t => printStory_run sr _ t Hlabels)
                                  (P := fun _ => True); auto.
        -- intros _ _. apply quiet_ret. reflexivity.
    + eapply quiet_bind; [apply quiet_Create|].
      intros r (story & ->). apply quiet_ret. eauto.
    + intros a1 a2 -> (story & ->).
      apply agree_bind; [apply agree_deref | intros number0].
      apply agree_bind; [apply agree_ListComments | intros [cms|e]].
      * apply agree_bind; [apply agree_emit | intros _].
        apply agree_bind; [|intros _; apply agree_emit].
        apply agree_forRange. intros cm. apply migrateComment_agree.
      * apply agree_halt.
  - apply agree_stops with (s := Panic).
    + intros t. exists []. unfold bind, printIssue. rewrite Hn. cbn.
      rewrite app_nil_r. auto.
    + eapply stopsQuietly_bind_quiet.
      * eapply quiet_bind; [apply quiet_Create|].
        intros r (story & ->). apply quiet_ret with (P := fun _ => True). exact I.
      * intros a _. intros t. exists []. cbn. rewrite app_nil_r. auto.
Qed.

Lemma main_agree :
  agree (main (setDryRun true flags) remote) (main (setDryRun false flags) remote).
Proof.
  unfold main, Println, Printf. cbn [repos owner limit setDryRun].
  change (initClients (setDryRun true flags)) with (initClients flags).
  change (initClients (setDryRun false flags)) with (initClients flags).
  apply agree_bind.
  { destruct (Z.of_nat (length (repos flags)) <? 1)%Z;
      [apply agree_halt | apply agree_ret]. }
  intros _. apply agree_bind; [|intros _].
  - apply agree_forRange. intros repo.
    apply agree_bind; [apply agree_emit | intros _].
    apply agree_bind; [apply agree_ListByRepo | intros [iss|e]].
    + apply agree_bind; [apply agree_emit | intros _].
      apply agree_forRange. intros is_. apply migrateIssue_agree.
    + apply agree_halt.
  - apply agree_bind; [apply agree_emit | intros _]. apply agree_halt.
Qed.

(** X12: when the answers of the source service do not depend on what
    the run did before and the destination service accepts every write,
    the dry run and the live run of the same configuration end the same
    way (the same exit, fatal message or panic) and make the same reads of
    the source service, in the same order. *)
Theorem dry_run_rehearses :
  fst (main (setDryRun true flags) remote []) =
    fst (main (setDryRun false flags) remote []) /\
  reads (snd (main (setDryRun true flags) remote [])) =
    reads (snd (main (setDryRun false flags) remote [])).
Proof.
  destruct (main_agree [] []) as (n1 & n2 & H1 & H2 & Hr & Ho).
  cbn [app] in H1, H2. rewrite H1, H2. auto.
Qed.

End Rehearsal.

(** ** Every fetched comment is attached once *)

Lemma attachedTexts_app (t1 t2 : list Event) :
  attachedTexts (t1 ++ t2) = attachedTexts t1 ++ attachedTexts t2.
Proof. apply flat_map_app. Qed.

Lemma fetchedCommentConversions_app {L : Lib} (t1 t2 : list Event) :
  fetchedCommentConversions (t1 ++ t2) =
  fetchedCommentConversions t1 ++ fetchedCommentConversions t2.
Proof. apply flat_map_app. Qed.

Lemma attached_texts {L : Lib} (p s : Z) (cms : list github.IssueComment.t)
      (adds : list Event) :
  Forall2 (attached p s) cms adds ->
  map Some (attachedTexts adds) = map convertComment cms /\
  fetchedCommentConversions adds = [].
Proof.
  induction 1 as [|cm e cms adds (c & r & Hc & ->) _ [IH1 IH2]].
  - split; reflexivity.
  - unfold attachedTexts, fetchedCommentConversions in *. cbn.
    rewrite IH1, IH2, Hc. auto.
Qed.

Section AttachesFetched.

Context {L : Lib}.
Variable flags : Flags.
Variable remote : Remote.
Hypothesis Hlive : dryRun flags = false.

Lemma migrateIssue_attaches (cl : Clients) (repo : string) (is_ : github.Issue.t) :
  run_spec (migrateIssue flags remote cl repo is_)
           (fun n o => o = Ret tt ->
                       map Some (attachedTexts n) = fetchedCommentConversions n).
Proof.
  apply run_spec_weaken with (1 := migrateIssue_live_returns flags remote cl Hlive repo is_).
  intros n o H Ho.
  destruct (H Ho) as (sr & story & number & cms & adds & _ & _ & Hadds & ->).
  destruct (attached_texts _ _ _ _ Hadds) as [Ha Hf].
  rewrite attachedTexts_app, fetchedCommentConversions_app.
  rewrite attachedTexts_app, fetchedCommentConversions_app, map_app, map_app, Ha, Hf.
  unfold fetchedCommentConversions, attachedTexts. cbn. rewrite !app_nil_r. reflexivity.
Qed.

Lemma concat_attaches (parts : list (list Event)) :
  Forall (fun n => map Some (attachedTexts n) = fetchedCommentConversions n) parts ->
  map Some (attachedTexts (concat parts)) = fetchedCommentConversions (concat parts).
Proof.
  induction 1 as [|n parts Hn _ IH]; [reflexivity|].
  cbn [concat]. rewrite attachedTexts_app, fetchedCommentConversions_app, map_app.
  rewrite Hn, IH. reflexivity.
Qed.

Lemma Forall2_right {A : Type} (P : list Event -> Prop) (l : list A)
      (parts : list (list Event)) :
  Forall2 (fun _ n => P n) l parts -> Forall P parts.
Proof. induction 1; constructor; auto. Qed.

Lemma repoStep_attaches (cl : Clients) (repo : string) :
  run_spec (repoStep flags remote cl repo)
           (fun n o => o = Ret tt ->
                       map Some (attachedTexts n) = fetchedCommentConversions n).
Proof.
  unfold repoStep, Printf.
  apply run_spec_bind_emit, run_spec_bind_ListByRepo. intros [iss|e].
  - apply run_spec_bind_emit.
    eapply run_spec_weaken.
    + apply forRange_returns
        with (R := fun (_ : github.Issue.t) n =>
                     map Some (attachedTexts n) = fetchedCommentConversions n).
      intros is_. apply migrateIssue_attaches.
    + intros n o H Ho. destruct (H Ho) as (parts & Hparts & ->).
      apply Forall2_right in Hparts. apply concat_attaches in Hparts.
      unfold attachedTexts, fetchedCommentConversions in *. cbn. exact Hparts.
  - apply run_spec_halt. discriminate.
Qed.

(** X14: in a live run that exits with status 0, the texts of the
    [AddComment] calls are, in order, the conversions of the comments the
    [ListComments] calls returned: every fetched comment was converted and
    attached once, in the order the source returned them. *)
Theorem live_attaches_fetched :
  fst (main flags remote []) = Halt (Exit 0) ->
  map Some (attachedTexts (snd (main flags remote []))) =
  fetchedCommentConversions (snd (main flags remote [])).
Proof.
  assert (H : run_spec (main flags remote)
                (fun n o => o = Halt (Exit 0) ->
                            map Some (attachedTexts n) = fetchedCommentConversions n)).
  { eapply main_spec.
    - intros _. discriminate.
    - apply forRange_returns
        with (R := fun (_ : string) n =>
                     map Some (attachedTexts n) = fetchedCommentConversions n).
      intros repo. apply repoStep_attaches.
    - intros n s _ _ Hs Heq. injection Heq as ->. destruct (Hs 0%Z). reflexivity.
    - intros n _ Hn _. cbn beta in Hn.
      destruct (Hn eq_refl) as (parts & Hparts & ->).
      apply Forall2_right in Hparts. apply concat_attaches in Hparts.
      rewrite attachedTexts_app, fetchedCommentConversions_app, map_app, Hparts.
      reflexivity. }
  destruct (H []) as (new & Hnew & Hres). cbn [app] in Hnew.
  rewrite Hnew. exact Hres.
Qed.

End AttachesFetched.

(** ** Panics come from incomplete records only *)

Lemma forRange_no_panic {A : Type} (P : A -> Prop) (l : list A) (body : A -> M unit) :
  Forall P l ->
  (forall x, P x -> run_spec (body x) (fun _ o => o <> Halt Panic)) ->
  run_spec (forRange l body) (fun _ o => o <> Halt Panic).
Proof.
  intros Hall Hbody. induction Hall as [|x l Hx _ IH]; cbn [forRange].
  - apply run_spec_ret. discriminate.
  - apply run_spec_bind with (1 := Hbody x Hx).
    + intros n1 s H. exact H.
    + intros n1 [] _. exact IH.
Qed.

Section NoPanic.

Context {L : Lib}.
Variable flags : Flags.
Variable remote : Remote.
Hypothesis Hcomplete : completeAnswers remote.

Lemma bind_ListByRepo_complete {B : Type} (cl : Clients) (o repo state : string)
      (perPage : Z) (k : result (list github.Issue.t) -> M B)
      (Q : list Event -> Outcome B -> Prop) :
  (forall iss, Forall completeIssue iss ->
               run_spec (k (ok iss))
                        (fun n out => Q (EvListByRepo o repo state perPage (ok iss) :: n) out)) ->
  (forall e, run_spec (k (err e))
                      (fun n out => Q (EvListByRepo o repo state perPage (err e) :: n) out)) ->
  run_spec (bind (ghSvc_ListByRepo remote cl o repo state perPage) k) Q.
Proof.
  intros Hok Herr t. unfold bind, ghSvc_ListByRepo. cbn zeta.
  destruct Hcomplete as (Hr & _).
  destruct (ListByRepo remote cl t o repo state perPage) as [iss|e] eqn:Heq.
  - destruct (Hok iss (Hr _ _ _ _ _ _ _ Heq)
                  (t ++ [EvListByRepo o repo state perPage (ok iss)])) as (n & Hn & HQ).
    eexists. rewrite Hn, <- app_assoc. split; [reflexivity | exact HQ].
  - destruct (Herr e (t ++ [EvListByRepo o repo state perPage (err e)])) as (n & Hn & HQ).
    eexists. rewrite Hn, <- app_assoc. split; [reflexivity | exact HQ].
Qed.

Lemma bind_ListComments_complete {B : Type} (cl : Clients) (o repo : string)
      (number perPage : Z) (k : result (list github.IssueComment.t) -> M B)
      (Q : list Event -> Outcome B -> Prop) :
  (forall cms, Forall completeComment cms ->
               run_spec (k (ok cms))
                        (fun n out => Q (EvListComments o repo number perPage (ok cms) :: n) out)) ->
  (forall e, run_spec (k (err e))
                      (fun n out => Q (EvListComments o repo number perPage (err e) :: n) out)) ->
  run_spec (bind (ghSvc_ListComments remote cl o repo number perPage) k) Q.
Proof.
  intros Hok Herr t. unfold bind, ghSvc_ListComments. cbn zeta.
  destruct Hcomplete as (_ & Hr).
  destruct (ListComments remote cl t o repo number perPage) as [cms|e] eqn:Heq.
  - destruct (Hok cms (Hr _ _ _ _ _ _ _ Heq)
                  (t ++ [EvListComments o repo number perPage (ok cms)])) as (n & Hn & HQ).
    eexists. rewrite Hn, <- app_assoc. split; [reflexivity | exact HQ].
  - destruct (Herr e (t ++ [EvListComments o repo number perPage (err e)])) as (n & Hn & HQ).
    eexists. rewrite Hn, <- app_assoc. split; [reflexivity | exact HQ].
Qed.

Lemma migrateComment_no_panic (cl : Clients) (newStory : option pivotal.Story.t)
      (cm : github.IssueComment.t) :
  completeComment cm ->
  (dryRun flags = false -> newStory <> None) ->
  run_spec (migrateComment flags remote cl newStory cm) (fun _ o => o <> Halt Panic).
Proof.
  intros Hcm Hstory.
  destruct (completeComment_converts cm Hcm)
    as (c & user & login & created & body & Hc & Hus & Hl & Hcr & Hb).
  unfold migrateComment. rewrite Hc.
  eapply run_spec_ext; [intros t; apply bind_ret_l|].
  destruct (dryRun flags).
  - apply run_spec_bind_known
      with (1 := fun t => printIssueComment_run cm user login body created t Hus Hl Hcr Hb).
    apply run_spec_known with (1 := printStoryComment_run c). discriminate.
  - destruct newStory as [story|]; [|destruct (Hstory eq_refl); reflexivity].
    eapply run_spec_ext; [intros t; apply bind_ret_l|].
    apply run_spec_bind_AddComment. intros [c'|e].
    + apply run_spec_ret. discriminate.
    + apply run_spec_halt. discriminate.
Qed.

Lemma migrateIssue_no_panic (cl : Clients) (repo : string) (is_ : github.Issue.t) :
  completeIssue is_ ->
  run_spec (migrateIssue flags remote cl repo is_) (fun _ o => o <> Halt Panic).
Proof.
  intros (Hn & Ht & Hb & Hu & Hc).
  destruct (github.Issue.Number is_) as [number|] eqn:En; [|congruence].
  destruct (github.Issue.Title is_) as [title|] eqn:Et; [|congruence].
  destruct (github.Issue.Body is_) as [body|] eqn:Eb; [|congruence].
  destruct (github.Issue.HTMLURL is_) as [url|] eqn:Eu; [|congruence].
  destruct (github.Issue.CreatedAt is_) as [created|] eqn:Ec; [|congruence].
  pose proof (convertIssue_present repo is_ url body title created Eu Ec Eb Et) as Hsr.
  match type of Hsr with _ = Some ?x => set (sr := x) in Hsr end.
  assert (Hlabels : pivotal.StoryRequest.Labels sr =
                    Some [ {| pivotal.Label.Name := "github-migrated" |};
                           {| pivotal.Label.Name := ("github-repo/" ++ repo)%string |} ])
    by reflexivity.
  clearbody sr.
  unfold migrateIssue, Println, Printf. rewrite Hsr, En.
  apply run_spec_bind_emit.
  eapply run_spec_ext; [intros t; apply bind_ret_l|].
  assert (Htail : forall newStory,
             (dryRun flags = false -> newStory <> None) ->
             run_spec
               (bind (deref (Some number)) (fun number0 =>
                bind (ghSvc_ListComments remote cl (owner flags) repo number0 1000) (fun r =>
                match r with
                | ok ghComments =>
                    bind (emit (EvPrint (Sprintf "found %d comments for issue number: %d"
                                           [ArgInt (Z.of_nat (length ghComments));
                                            ArgInt number0])))
                         (fun _ =>
                    bind (forRange ghComments (migrateComment flags remote cl newStory))
                         (fun _ => emit (EvPrint ((LF ++ "===== end =====" ++ LF) ++ LF)%string)))
                | err e =>
                    log_Fatalf "failed to list gh comments for repo: %s, issue %d: error: %v"
                               [ArgString repo; ArgInt number0; ArgError e]
                end)))
               (fun _ o => o <> Halt Panic)).
  { intros newStory Hstory.
    eapply run_spec_ext; [intros t; apply bind_ret_l|].
    apply bind_ListComments_complete.
    - intros cms Hcms. apply run_spec_bind_emit.
      eapply run_spec_bind.
      + apply forRange_no_panic with (1 := Hcms). intros cm Hcm.
        apply migrateComment_no_panic; assumption.
      + intros n1 s H. exact H.
      + intros n1 [] _. apply run_spec_emit. discriminate.
    - intros e. apply run_spec_halt. discriminate. }
  destruct (dryRun flags) eqn:Hd.
  - apply run_spec_bind_assoc.
    apply run_spec_bind_known
      with (1 := fun t => printIssue_run is_ number title url created t En Et Eu Ec).
    apply run_spec_bind_assoc.
    apply run_spec_bind_known
      with (1 := fun t => printStory_run sr _ t Hlabels).
    eapply run_spec_ext; [intros t; apply bind_ret_l|].
    apply run_spec_weaken with (1 := Htail None ltac:(discriminate)). auto.
  - apply run_spec_bind_assoc, run_spec_bind_Create. intros [story|e].
    + eapply run_spec_ext; [intros t; apply bind_ret_l|].
      apply run_spec_weaken with (1 := Htail (Some story) ltac:(discriminate)). auto.
    + eapply run_spec_ext; [intros t; apply bind_halt_l|].
      apply run_spec_halt. discriminate.
Qed.

Lemma repos_loop_no_panic (cl : Clients) (rs : list string) :
  run_spec (forRange rs (repoStep flags remote cl)) (fun _ o => o <> Halt Panic).
Proof.
  apply forRange_no_panic with (P := fun _ => True).
  - clear. induction rs; constructor; auto.
  - intros repo _. unfold repoStep, Printf.
    apply run_spec_bind_emit.
    apply bind_ListByRepo_complete.
    + intros iss Hiss. apply run_spec_bind_emit.
      apply forRange_no_panic with (1 := Hiss). intros is_ His.
      apply migrateIssue_no_panic. exact His.
    + intros e. apply run_spec_halt. discriminate.
Qed.

(** X13: when the source service only returns issues and comments with
    every field set, a run of [main] never panics, in either mode and
    whichever calls fail: it ends at [os.Exit] with status 0 or at a fatal
    error. *)
Theorem complete_records_no_panic :
  fst (main flags remote []) = Halt (Exit 0) \/
  exists msg, fst (main flags remote []) = Halt (Fatal msg).
Proof.
  assert (H : run_spec (main flags remote)
                (fun _ o => o = Halt (Exit 0) \/ exists msg, o = Halt (Fatal msg))).
  { apply main_spec with (Q1 := fun _ o => o <> Halt Panic).
    - intros _. right. eauto.
    - apply repos_loop_no_panic.
    - intros n s _ Hs Hexit. destruct s as [msg| |c].
      + right. eauto.
      + destruct Hs. reflexivity.
      + destruct (Hexit c). reflexivity.
    - intros n _ _. left. reflexivity. }
  destruct (H []) as (new & _ & Hres). exact Hres.
Qed.

End NoPanic.

(** ** What is sent is the conversion of what was fetched *)

Lemma map_prefix_split {A B : Type} (f : A -> option B) (l : list A) (ys : list B)
      (r : list (option B)) :
  map f l = map Some ys ++ r ->
  exists l1 l2, l = l1 ++ l2 /\ Forall2 (fun x y => f x = Some y) l1 ys /\ r = map f l2.
Proof.
  revert l. induction ys as [|y ys IH]; intros l Heq.
  - exists [], l. repeat split; [constructor | symmetry; exact Heq].
  - destruct l as [|x l]; [discriminate|]. cbn in Heq.
    injection Heq as Hx Heq. destruct (IH l Heq) as (l1 & l2 & -> & Hall & ->).
    exists (x :: l1), l2. repeat split. constructor; assumption.
Qed.

Lemma fetchedConversions_fetchedIssues {L : Lib} (t : list Event) :
  fetchedConversions t = map (fun x => convertIssue (fst x) (snd x)) (fetchedIssues t).
Proof.
  induction t as [|e t IH]; [reflexivity|].
  unfold fetchedConversions, fetchedIssues in *. cbn [flat_map].
  rewrite map_app, IH. f_equal.
  destruct e as [| ? ? ? ? [iss|]| | |]; try reflexivity.
  rewrite map_map. reflexivity.
Qed.

Lemma fetchedCommentConversions_fetchedComments {L : Lib} (t : list Event) :
  fetchedCommentConversions t = map convertComment (fetchedComments t).
Proof.
  induction t as [|e t IH]; [reflexivity|].
  unfold fetchedCommentConversions, fetchedComments in *. cbn [flat_map].
  rewrite map_app, IH. f_equal.
  destruct e as [| |? ? ? ? [cms|]| |]; reflexivity.
Qed.

(** A loop whose every round either stops before it sends anything or sends
    the conversion of its item: what was sent is the conversion of the
    first items, of all of them when the loop returned. *)
Lemma forRange_prefix {A B : Type} (f : A -> option B) (proj : list Event -> list B)
      (N : list Event -> Prop) (l : list A) (body : A -> M unit) :
  (forall n1 n2, proj (n1 ++ n2) = proj n1 ++ proj n2) ->
  proj [] = [] ->
  N [] -> (forall n1 n2, N n1 -> N n2 -> N (n1 ++ n2)) ->
  (forall x, run_spec (body x)
               (fun n o => N n /\
                           ((proj n = [] /\ exists s, o = Halt s) \/
                            (exists b, f x = Some b /\ proj n = [b])))) ->
  run_spec (forRange l body)
           (fun n o => N n /\
                       exists rest, map f l = map Some (proj n) ++ rest /\
                                    (o = Ret tt -> rest = [])).
Proof.
  intros Happ Hnil HN0 HNapp Hbody. induction l as [|x l IH]; cbn [forRange].
  - apply run_spec_ret. split; [exact HN0|]. exists []. rewrite Hnil. auto.
  - apply run_spec_bind with (1 := Hbody x).
    + intros n1 s [HN [[Hp _]|(b & Hb & Hp)]]; (split; [exact HN|]).
      * exists (f x :: map f l). rewrite Hp. split; [reflexivity | discriminate].
      * exists (map f l). rewrite Hp. cbn [map app]. rewrite Hb.
        split; [reflexivity | discriminate].
    + intros n1 [] [HN [[_ (s & Hs)]|(b & Hb & Hp)]]; [discriminate|].
      apply run_spec_weaken with (1 := IH).
      intros n2 o [HN2 (rest & Hrest & Hret)]. split; [auto|].
      exists rest. rewrite Happ, Hp. cbn [map app]. rewrite Hb, Hrest. auto.
Qed.

Section SentIsFetched.

Context {L : Lib}.
Variable flags : Flags.
Variable remote : Remote.
Hypothesis Hlive : dryRun flags = false.

Lemma no_story_events (n : list Event) :
  Forall (fun e => match e with
                   | EvCreate _ _ _ | EvListByRepo _ _ _ _ _ => False
                   | _ => True
                   end) n ->
  createdRequests n = [] /\ fetchedConversions n = [].
Proof.
  induction 1 as [|e n He _ [IH1 IH2]]; [auto|].
  unfold createdRequests, fetchedConversions in *. cbn [flat_map].
  rewrite IH1, IH2. destruct e; try contradiction; auto.
Qed.

Lemma no_comment_events (n : list Event) :
  Forall (fun e => match e with
                   | EvAddComment _ _ _ _ | EvListComments _ _ _ _ _ => False
                   | _ => True
                   end) n ->
  attachedTexts n = [] /\ fetchedCommentConversions n = [].
Proof.
  induction 1 as [|e n He _ [IH1 IH2]]; [auto|].
  unfold attachedTexts, fetchedCommentConversions in *. cbn [flat_map].
  rewrite IH1, IH2. destruct e; try contradiction; auto.
Qed.

(** One issue in live mode: either the run stopped before any [Create], or
    it made one [Create], with the conversion of the issue. *)
Lemma migrateIssue_live_creates (cl : Clients) (repo : string) (is_ : github.Issue.t) :
  run_spec (migrateIssue flags remote cl repo is_)
    (fun n o =>
       fetchedConversions n = [] /\
       ((createdRequests n = [] /\ exists s, o = Halt s) \/
        (exists sr, convertIssue repo is_ = Some sr /\ createdRequests n = [sr]))).
Proof.
  unfold migrateIssue, Println. rewrite Hlive.
  apply run_spec_bind_emit.
  apply run_spec_bind_deref;
    [intros sr Hsr | intros _; split; [reflexivity | left; split; eauto]].
  apply run_spec_bind_assoc, run_spec_bind_Create. intros r.
  apply satisfies_weaken
    with (P := always (fun e => match e with
                                | EvCreate _ _ _ | EvListByRepo _ _ _ _ _ => False
                                | _ => True
                                end)).
  - repeat always_step; try exact I; try (intros s; exact I).
    + apply ListComments_always. intros r'. exact I.
    + apply satisfies_forRange; [apply always_Sequential|]. intros cm _.
      apply migrateComment_always; intros; exact I.
  - intros n o Hn. destruct (no_story_events n Hn) as [Hc Hf].
    unfold createdRequests, fetchedConversions in *. cbn [flat_map app].
    rewrite Hc, Hf. split; [reflexivity|]. right. exists sr. auto.
Qed.

Lemma repoStep_createsFetched (cl : Clients) (repo : string) :
  satisfies (repoStep flags remote cl repo) createsFetched.
Proof.
  unfold repoStep, Printf.
  apply run_spec_bind_emit, run_spec_bind_ListByRepo. intros [iss|e].
  - apply run_spec_bind_emit.
    eapply run_spec_weaken.
    + apply forRange_prefix
        with (f := convertIssue repo) (proj := createdRequests)
             (N := fun n => fetchedConversions n = []).
      * apply createdRequests_app.
      * reflexivity.
      * reflexivity.
      * intros n1 n2 H1 H2. rewrite fetchedConversions_app, H1, H2. reflexivity.
      * intros is_. apply migrateIssue_live_creates.
    + intros n o [Hf (rest & Hrest & Hret)].
      exists rest. unfold createdRequests, fetchedConversions in *.
      cbn [flat_map app]. rewrite Hf, app_nil_r. split; [exact Hrest|].
      intros Ho. apply Hret. destruct o as [[]|s]; [reflexivity | discriminate].
  - apply run_spec_halt. exists []. split; [reflexivity | discriminate].
Qed.

Lemma createsFetched_Sequential : Sequential createsFetched.
Proof.
  split; unfold createsFetched.
  - exists []. auto.
  - intros n1 n2 o (r1 & H1 & Hr1) (r2 & H2 & Hr2).
    exists r2. rewrite fetchedConversions_app, createdRequests_app, map_app, H1, H2.
    rewrite (Hr1 eq_refl), app_nil_r, app_assoc. auto.
Qed.

(** One comment in live mode: either the run stopped before any
    [AddComment], or it made one, with the conversion of the comment. *)
Lemma migrateComment_live_attaches (cl : Clients) (story : pivotal.Story.t)
      (cm : github.IssueComment.t) :
  run_spec (migrateComment flags remote cl (Some story) cm)
    (fun n o =>
       fetchedCommentConversions n = [] /\
       ((attachedTexts n = [] /\ exists s, o = Halt s) \/
        (exists c, convertComment cm = Some c /\ attachedTexts n = [c]))).
Proof.
  unfold migrateComment. rewrite Hlive.
  apply run_spec_bind_deref;
    [intros c Hc | intros _; split; [reflexivity | left; split; eauto]].
  eapply run_spec_ext; [intros t; apply bind_ret_l|].
  apply run_spec_bind_AddComment. intros [c'|e].
  - apply run_spec_ret. split; [reflexivity|]. right. exists c. auto.
  - apply run_spec_halt. split; [reflexivity|]. right. exists c. auto.
Qed.

Lemma migrateIssue_attachesFetched (cl : Clients) (repo : string)
      (is_ : github.Issue.t) :
  satisfies (migrateIssue flags remote cl repo is_) attachesFetched.
Proof.
  unfold migrateIssue, Println, Printf. rewrite Hlive.
  apply run_spec_bind_emit.
  apply run_spec_bind_deref;
    [intros sr Hsr | intros _; exists []; split; [reflexivity | discriminate]].
  apply run_spec_bind_assoc, run_spec_bind_Create. intros [story|e].
  2:{ eapply run_spec_ext; [intros t; apply bind_halt_l|].
      apply run_spec_halt. exists []. split; [reflexivity | discriminate]. }
  eapply run_spec_ext; [intros t; apply bind_ret_l|].
  apply run_spec_bind_deref;
    [intros number Hnumber | intros _; exists []; split; [reflexivity | discriminate]].
  apply run_spec_bind_ListComments. intros [cms|e].
  2:{ apply run_spec_halt. exists []. split; [reflexivity | discriminate]. }
  apply run_spec_bind_emit.
  eapply run_spec_bind.
  - apply forRange_prefix
      with (f := convertComment) (proj := attachedTexts)
           (N := fun n => fetchedCommentConversions n = []).
    + apply attachedTexts_app.
    + reflexivity.
    + reflexivity.
    + intros n1 n2 H1 H2. rewrite fetchedCommentConversions_app, H1, H2. reflexivity.
    + intros cm. apply migrateComment_live_attaches.
  - intros n1 s [Hf (rest & Hrest & _)].
    exists rest. unfold attachedTexts, fetchedCommentConversions in *.
    cbn [flat_map app]. rewrite Hf, app_nil_r. split; [exact Hrest | discriminate].
  - intros n1 [] [Hf (rest & Hrest & Hret)].
    apply run_spec_emit. exists [].
    rewrite (Hret eq_refl), app_nil_r in Hrest.
    unfold attachedTexts, fetchedCommentConversions in *.
    cbn [flat_map app]. rewrite !flat_map_app. cbn [flat_map app].
    rewrite Hf, !app_nil_r. auto.
Qed.

Lemma attachesFetched_Sequential : Sequential attachesFetched.
Proof.
  split; unfold attachesFetched.
  - exists []. auto.
  - intros n1 n2 o (r1 & H1 & Hr1) (r2 & H2 & Hr2).
    exists r2.
    rewrite fetchedCommentConversions_app, attachedTexts_app, map_app, H1, H2.
    rewrite (Hr1 eq_refl), app_nil_r, app_assoc. auto.
Qed.

Lemma attachesFetched_of_always {A : Type} (m : M A) :
  satisfies m (always (fun e => match e with
                                | EvAddComment _ _ _ _ | EvListComments _ _ _ _ _ => False
                                | _ => True
                                end)) ->
  satisfies m attachesFetched.
Proof.
  intros H. apply run_spec_weaken with (1 := H). intros n o Hn.
  destruct (no_comment_events n Hn) as [Ha Hf].
  exists []. rewrite Ha, Hf. auto.
Qed.

Lemma repoStep_attachesFetched (cl : Clients) (repo : string) :
  satisfies (repoStep flags remote cl repo) attachesFetched.
Proof.
  pose proof attachesFetched_Sequential as HS.
  unfold repoStep.
  apply satisfies_bind; [exact HS | | intros _].
  { apply attachesFetched_of_always. repeat always_step. intros s; exact I. }
  apply satisfies_bind; [exact HS | | intros [iss|e]].
  - apply attachesFetched_of_always. apply ListByRepo_always. intros r. exact I.
  - apply satisfies_bind; [exact HS | | intros _].
    { apply attachesFetched_of_always. repeat always_step. intros s; exact I. }
    apply satisfies_forRange; [exact HS|]. intros is_ _.
    apply migrateIssue_attachesFetched.
  - apply attachesFetched_of_always. repeat always_step.
Qed.

Lemma main_createsFetched :
  run_spec (main flags remote)
           (fun n o => exists rest,
                fetchedConversions n = map Some (createdRequests n) ++ rest /\
                (o = Halt (Exit 0) -> rest = [])).
Proof.
  apply main_spec with (Q1 := fun n o => createsFetched n (stopped o)).
  - intros _. exists []. auto.
  - apply satisfies_forRange; [apply createsFetched_Sequential|]. intros repo _.
    apply repoStep_createsFetched.
  - intros n s _ (rest & Hrest & _) Hs. exists rest. split; [exact Hrest|].
    intros Heq. injection Heq as ->. destruct (Hs 0%Z). reflexivity.
  - intros n _ (rest & Hrest & Hret). exists [].
    rewrite (Hret eq_refl), app_nil_r in Hrest.
    rewrite fetchedConversions_app, createdRequests_app, map_app, Hrest.
    cbn. rewrite !app_nil_r. auto.
Qed.

Lemma main_attachesFetched :
  run_spec (main flags remote)
           (fun n o => exists rest,
                fetchedCommentConversions n = map Some (attachedTexts n) ++ rest /\
                (o = Halt (Exit 0) -> rest = [])).
Proof.
  apply main_spec with (Q1 := fun n o => attachesFetched n (stopped o)).
  - intros _. exists []. auto.
  - apply satisfies_forRange; [apply attachesFetched_Sequential|]. intros repo _.
    apply repoStep_attachesFetched.
  - intros n s _ (rest & Hrest & _) Hs. exists rest. split; [exact Hrest|].
    intros Heq. injection Heq as ->. destruct (Hs 0%Z). reflexivity.
  - intros n _ (rest & Hrest & Hret). exists [].
    rewrite (Hret eq_refl), app_nil_r in Hrest.
    rewrite fetchedCommentConversions_app, attachedTexts_app, map_app, Hrest.
    cbn. rewrite !app_nil_r. auto.
Qed.

Lemma converted_wholeStory (x : string * github.Issue.t) (req : pivotal.StoryRequest.t) :
  convertIssue (fst x) (snd x) = Some req -> wholeStory x req.
Proof.
  intros H. split; [exact H|].
  destruct (convertIssue_Some_inv _ _ _ H)
    as (url & created & body & title & Hu & Hc & Hb & _ & ->).
  exists url, created, body. auto.
Qed.

Lemma converted_wholeText (cm : github.IssueComment.t) (c : pivotal.Comment.t) :
  convertComment cm = Some c -> wholeText cm c.
Proof.
  intros H. split; [exact H|].
  destruct (convertComment_Some_inv _ _ H)
    as (url & created & user & login & body & Hu & Hc & Hus & Hl & Hb & ->).
  exists url, created, user, login, body. auto 10.
Qed.

(** C7: in live mode, the requests a run of [main] passes to [ptSvc.Create]
    are, one by one and in order, the conversions of the issues
    [ListByRepo] returned, and the texts it passes to [ptSvc.AddComment]
    the conversions of the comments [ListComments] returned: each
    description, or text, is the provenance block followed by the whole
    body of that very record, whatever its length.  Records are left over
    only when the run stopped early; none is when it exits with status 0.
    ([trunc] occurs in [printStory], [printIssueComment] and
    [printStoryComment] only.) *)
Theorem sent_untruncated :
  (exists sent rest,
      fetchedIssues (snd (main flags remote [])) = sent ++ rest /\
      Forall2 wholeStory sent (createdRequests (snd (main flags remote []))) /\
      (fst (main flags remote []) = Halt (Exit 0) -> rest = [])) /\
  (exists sent rest,
      fetchedComments (snd (main flags remote [])) = sent ++ rest /\
      Forall2 wholeText sent (attachedTexts (snd (main flags remote []))) /\
      (fst (main flags remote []) = Halt (Exit 0) -> rest = [])).
Proof.
  split.
  - destruct (main_createsFetched []) as (new & Hnew & rest & Hrest & Hexit).
    cbn [app] in Hnew. rewrite Hnew.
    rewrite fetchedConversions_fetchedIssues in Hrest.
    destruct (map_prefix_split _ _ _ _ Hrest) as (sent & left & Hsplit & Hall & Hleft).
    exists sent, left. split; [exact Hsplit|]. split.
    + clear - Hall. induction Hall; constructor; auto.
      apply converted_wholeStory. assumption.
    + intros Ho. rewrite (Hexit Ho) in Hleft. destruct left; [reflexivity | discriminate].
  - destruct (main_attachesFetched []) as (new & Hnew & rest & Hrest & Hexit).
    cbn [app] in Hnew. rewrite Hnew.
    rewrite fetchedCommentConversions_fetchedComments in Hrest.
    destruct (map_prefix_split _ _ _ _ Hrest) as (sent & left & Hsplit & Hall & Hleft).
    exists sent, left. split; [exact Hsplit|]. split.
    + clear - Hall. induction Hall; constructor; auto.
      apply converted_wholeText. assumption.
    + intros Ho. rewrite (Hexit Ho) in Hleft. destruct left; [reflexivity | discriminate].
Qed.

End SentIsFetched.

(** ** The whole of [main] *)

(** X7: a run of [main], from [flag.Parse] on, never falls off the end: it
    stops at a fatal error, at a panic or at [os.Exit].  It exits either
    inside [flag.Parse], with the status the [flag] package chose and
    before anything else happened, or at the end with status 0; and then
    the repository list was not empty, no remote call failed, and
    [Finished.] is the last thing printed. *)
Theorem exit_status {L : Lib} (flagParse : list string -> Parsed) (remote : Remote)
        (args : list string) :
  exists s : Stop,
    fst (mainFromArgs flagParse remote args []) = Halt s /\
    forall c, s = Exit c ->
      (flagParse args = ParseExit c /\
       snd (mainFromArgs flagParse remote args []) = []) \/
      (exists flags,
          flagParse args = ParsedFlags flags /\
          c = 0%Z /\
          repos flags <> [] /\
          Forall (fun e => ~ failed e) (snd (mainFromArgs flagParse remote args [])) /\
          exists pre, snd (mainFromArgs flagParse remote args []) = pre ++ [EvPrint finished]).
Proof.
  unfold mainFromArgs. destruct (flagParse args) as [flags|code].
  - destruct (parsed_exit_status flags remote) as (s & Hs & Hexit).
    exists s. split; [exact Hs|]. intros c Hc. right.
    destruct (Hexit c Hc) as (H0 & Hne & Hall & Hlast).
    exists flags. auto.
  - exists (Exit code). split; [reflexivity|].
    intros c Hc. injection Hc as ->. left. auto.
Qed.

(** * The further properties at work *)

Lemma steadyRemote_reliable : reliable steadyRemote.
Proof.
  unfold reliable. split; [|split; [|split]].
  - intros. exists [issue42]. split; [reflexivity|].
    constructor; [|constructor]. unfold completeIssue. cbn. repeat split; discriminate.
  - intros. exists [comment1]. split; [reflexivity|].
    constructor; [|constructor]. unfold completeComment. cbn.
    repeat split; try discriminate. eexists _, _. split; reflexivity.
  - intros. eexists. reflexivity.
  - intros. eexists. reflexivity.
Qed.

Lemma demoRemote_steady : steady demoRemote.
Proof. repeat split; intros; eexists; reflexivity. Qed.

(** X3 on two issues of [widgets]. *)
Lemma labels_identify_repo_witness : "widgets"%string = "widgets"%string.
Proof.
  apply (labels_identify_repo (L := demoLib) "widgets" "widgets" issue42 issueLong
           _ _ eq_refl eq_refl).
  reflexivity.
Defined.

(** X4 on the live migration of [issue42]. *)
Lemma live_migration_trace_witness :
  exists sr story number cms adds,
    convertIssue (L := demoLib) "widgets" issue42 = Some sr /\
    github.Issue.Number issue42 = Some number /\
    Forall2 (attached (L := demoLib) 99 (pivotal.Story.Id story)) cms adds /\
    snd demoIssueRun =
      [] ++ [ EvPrint beginBanner;
              EvCreate 99 sr (ok story);
              EvListComments "acme" "widgets" number 1000 (ok cms);
              EvPrint (foundComments (length cms) number) ]
         ++ adds ++ [EvPrint endBanner].
Proof.
  apply (live_migration_trace (L := demoLib) (demoFlags false ["widgets"]) demoRemote
           (initClients (demoFlags false ["widgets"])) eq_refl "widgets" issue42 []).
  vm_compute. reflexivity.
Defined.

(** X5 on the dry run over [issue42]. *)
Lemma dry_migration_trace_witness :
  exists sr number title url created cms,
    convertIssue (L := demoLib) "widgets" issue42 = Some sr /\
    github.Issue.Number issue42 = Some number /\
    github.Issue.Title issue42 = Some title /\
    github.Issue.HTMLURL issue42 = Some url /\
    github.Issue.CreatedAt issue42 = Some created /\
    Forall (fun cm => convertComment (L := demoLib) cm <> None) cms /\
    snd (migrateIssue (L := demoLib) (demoFlags true ["widgets"]) demoRemote
                      (initClients (demoFlags true ["widgets"])) "widgets" issue42 []) =
      [] ++ [ EvPrint beginBanner;
              EvPrint (issuePrintBlock (L := demoLib) number title url created
                                       (github.Issue.Labels issue42));
              EvPrint (storyBlock (L := demoLib) sr
                                  ["github-migrated"%string;
                                   ("github-repo/" ++ "widgets")%string]);
              EvListComments "acme" "widgets" number 1000 (ok cms);
              EvPrint (foundComments (length cms) number) ]
         ++ flat_map (previewComment (L := demoLib)) cms ++ [EvPrint endBanner].
Proof.
  apply (dry_migration_trace (L := demoLib) (demoFlags true ["widgets"]) demoRemote
           (initClients (demoFlags true ["widgets"])) eq_refl "widgets" issue42 []).
  vm_compute. reflexivity.
Defined.

(** X6 on [demoNoCreateRun]: the first [Create] fails and ends the run. *)
Lemma fail_stop_witness :
  @nil Event = [] /\
  exists msg,
    failureMessage (L := demoLib)
      (match convertIssue (L := demoLib) "widgets" issue42 with
       | Some sr => EvCreate 99 sr (err "validation error")
       | None => EvPrint EmptyString
       end) = Some msg /\
    fst demoNoCreateRun = Halt (Fatal msg).
Proof.
  apply (fail_stop (L := demoLib) (demoFlags false ["widgets"; "widgets"])
           demoRemoteNoCreate (removelast (snd demoNoCreateRun)) []).
  - vm_compute. reflexivity.
  - exact I.
Defined.

(** The calls of [demoNoCreateRun]: one listing, one refused story. *)
Example no_create_run_calls :
  map mutating (filter networkCall (snd demoNoCreateRun)) = [false; true] /\
  fst demoNoCreateRun = Halt (Fatal "error creating story: validation error").
Proof. vm_compute. split; reflexivity. Qed.

(** X10 on a live run over [widgets] and [long]. *)
Lemma live_creates_fetched_witness :
  map Some (createdRequests
              (snd (main (L := demoLib) (demoFlags false ["widgets"; "long"]) demoRemote []))) =
  fetchedConversions (L := demoLib)
    (snd (main (L := demoLib) (demoFlags false ["widgets"; "long"]) demoRemote [])).
Proof.
  apply (live_creates_fetched (L := demoLib) (demoFlags false ["widgets"; "long"])
           demoRemote eq_refl).
  vm_compute. reflexivity.
Defined.

(** X11 on [steadyRemote], in live mode. *)
Lemma reliable_run_exits_zero_witness :
  fst (main (L := demoLib) (demoFlags false ["widgets"; "gadgets"]) steadyRemote []) =
  Halt (Exit 0).
Proof.
  apply (reliable_run_exits_zero (L := demoLib) (demoFlags false ["widgets"; "gadgets"])
           steadyRemote steadyRemote_reliable).
  discriminate.
Defined.

(** X12 on [demoRemote] with a repository that cannot be listed. *)
Lemma dry_run_rehearses_witness :
  fst (main (L := demoLib)
            (setDryRun true (demoFlags true ["widgets"; "broken"; "widgets"]))
            demoRemote []) =
    fst (main (L := demoLib)
              (setDryRun false (demoFlags true ["widgets"; "broken"; "widgets"]))
              demoRemote []) /\
  reads (snd (main (L := demoLib)
                   (setDryRun true (demoFlags true ["widgets"; "broken"; "widgets"]))
                   demoRemote [])) =
    reads (snd (main (L := demoLib)
                     (setDryRun false (demoFlags true ["widgets"; "broken"; "widgets"]))
                     demoRemote [])).
Proof.
  apply (dry_run_rehearses (L := demoLib) (demoFlags true ["widgets"; "broken"; "widgets"])
           demoRemote demoRemote_steady).
Defined.

Lemma demoRemote_completeAnswers : completeAnswers demoRemote.
Proof.
  split.
  - intros cl t o repo st pp iss. cbn.
    destruct (String.eqb repo "broken"); [discriminate|].
    destruct (String.eqb repo "widgets");
      [|destruct (String.eqb repo "long")];
      intros H; injection H as <-; repeat constructor; discriminate.
  - intros cl t o repo number pp cms H. injection H as <-.
    constructor; [|constructor]. unfold completeComment. cbn.
    repeat split; try discriminate. eexists _, _. split; reflexivity.
Qed.

(** X13 on [demoBrokenRun]. *)
Lemma complete_records_no_panic_witness :
  fst demoBrokenRun = Halt (Exit 0) \/
  exists msg, fst demoBrokenRun = Halt (Fatal msg).
Proof.
  apply (complete_records_no_panic (L := demoLib)
           (demoFlags true ["widgets"; "broken"; "widgets"]) demoRemote
           demoRemote_completeAnswers).
Defined.

(** X14 on a live run over [widgets] and [long]. *)
Lemma live_attaches_fetched_witness :
  map Some (attachedTexts
              (snd (main (L := demoLib) (demoFlags false ["widgets"; "long"]) demoRemote []))) =
  fetchedCommentConversions (L := demoLib)
    (snd (main (L := demoLib) (demoFlags false ["widgets"; "long"]) demoRemote [])).
Proof.
  apply (live_attaches_fetched (L := demoLib) (demoFlags false ["widgets"; "long"])
           demoRemote eq_refl).
  vm_compute. reflexivity.
Defined.

(** C5 with the length counted in characters: 200 copies of a two-byte
    character are fewer than 255 characters, yet [trunc] does not return
    them unchanged: it keeps 255 of the 400 bytes, which ends in the first
    byte of the 128th character.  And of 300 copies it does not keep the
    first 255 characters, which are 510 bytes. *)
Lemma trunc_cuts_characters :
  Nat.ltb (runeCount (repeatString 200 eAcute)) 255 = true /\
  String.length (repeatString 200 eAcute) = 400 /\
  String.eqb (trunc (repeatString 200 eAcute)) (repeatString 200 eAcute) = false /\
  trunc (repeatString 200 eAcute) =
    (repeatString 127 eAcute ++ String (ascii_of_nat 195) EmptyString)%string /\
  Nat.leb 255 (runeCount (repeatString 300 eAcute)) = true /\
  String.eqb (trunc (repeatString 300 eAcute)) (repeatString 255 eAcute) = false.
Proof. vm_compute. repeat split. Qed.

(** C7 on a live run over [widgets] and [long]. *)
Lemma sent_untruncated_witness :
  (exists sent rest,
      fetchedIssues
        (snd (main (L := demoLib) (demoFlags false ["widgets"; "long"]) demoRemote []))
      = sent ++ rest /\
      Forall2 (wholeStory (L := demoLib)) sent
              (createdRequests
                 (snd (main (L := demoLib) (demoFlags false ["widgets"; "long"])
                            demoRemote []))) /\
      (fst (main (L := demoLib) (demoFlags false ["widgets"; "long"]) demoRemote [])
       = Halt (Exit 0) -> rest = [])) /\
  (exists sent rest,
      fetchedComments
        (snd (main (L := demoLib) (demoFlags false ["widgets"; "long"]) demoRemote []))
      = sent ++ rest /\
      Forall2 (wholeText (L := demoLib)) sent
              (attachedTexts
                 (snd (main (L := demoLib) (demoFlags false ["widgets"; "long"])
                            demoRemote []))) /\
      (fst (main (L := demoLib) (demoFlags false ["widgets"; "long"]) demoRemote [])
       = Halt (Exit 0) -> rest = [])).
Proof.
  apply (sent_untruncated (L := demoLib) (demoFlags false ["widgets"; "long"]) demoRemote).
  reflexivity.
Defined.

(** What that run fetched and what it sent: two issues, two stories, the
    second with its body of 300 bytes whole. *)
Example live_run_sends_fetched :
  fetchedIssues
    (snd (main (L := demoLib) (demoFlags false ["widgets"; "long"]) demoRemote []))
  = [("widgets"%string, issue42); ("long"%string, issueLong)] /\
  map (fun req => String.length (pivotal.StoryRequest.Description req))
      (createdRequests
         (snd (main (L := demoLib) (demoFlags false ["widgets"; "long"]) demoRemote [])))
  = [ String.length (issueBlock (L := demoLib) "https://github.com/acme/widgets/issues/42"
                                {| time.sec := 1436000000; time.nsec := 0 |}
                                (github.Issue.Labels issue42)) + 8;
      String.length (issueBlock (L := demoLib) "https://github.com/acme/widgets/issues/42"
                                {| time.sec := 1436000000; time.nsec := 0 |}
                                (github.Issue.Labels issue42)) + 300 ] /\
  fst (main (L := demoLib) (demoFlags false ["widgets"; "long"]) demoRemote [])
  = Halt (Exit 0).
Proof. vm_compute. repeat split. Qed.

(** A command line [flag.Parse] refuses ends the run with its status, here
    2, before anything is printed. *)
Example refused_command_line :
  mainFromArgs (L := demoLib) (fun _ => ParseExit 2) demoRemote ["-limit=x"%string] []
  = (Halt (Exit 2), []).
Proof. reflexivity. Qed.
